(** * BTC-Predictor: the sentiment pipeline of [main.py], embedded and verified

    The development follows [src/main.py] function by function:
    [_score_text], [fetch_news], [filter_recent], [fetch_price_snapshot]
    (with its inner [fetch_json]), [combine_signal], [expected_move_pct] and
    the price-target line shared by [format_report] and [app.load_data].

    Conventions of the embedding.
    - A Python [float] is an exact rational ([Q]); equality of floats is
      [Qeq].  Rounding of binary64 is not modelled there, so a numeric
      statement is a statement of exact arithmetic, unless it is about the
      rounded or the binary64 form of the projection, which are defined
      next to the exact one.  Float division raises [ZeroDivisionError] on
      a zero divisor, as in Python.
    - A Python [int] is a [Z].
    - A [str] is a [string]: its characters are the code points below 256,
      with the case folding and the whitespace Python gives them.
    - An aware UTC [datetime] is its number of microseconds since the epoch.
    - Exceptions are values of [exn]; a fallible computation returns
      [exn + A].  The network and the clock of [fetch_json] are an explicit
      world: an oracle answering the n-th request and a log of events. *)

From stdpp Require Import base decidable list strings gmap sets.
From Stdlib Require Import ZArith QArith Qabs Lia Lqa Ascii PrimFloat.

Open Scope Z_scope.

(** ** Constants *)

Definition RSS_SOURCES : list string :=
  [ "https://www.coindesk.com/arc/outboundfeeds/rss/";
    "https://cointelegraph.com/rss";
    "https://cryptopanic.com/news/rss/bitcoin/" ]%string.

Definition YAHOO_SYMBOL : string := "BTC-USD".

(** ** Text helpers *)

Definition char_code (c : ascii) : N := N_of_ascii c.

(** [str.lower] on one character: the letters A-Z and, among the
    characters from 128 to 255, the capital letters 192..222 other than the
    multiplication sign 215 move up by 32. *)
Definition lower_char (c : ascii) : ascii :=
  let n := char_code c in
  if (((65 <=? n) && (n <=? 90))
      || ((192 <=? n) && (n <=? 222) && negb (n =? 215)))%N
  then ascii_of_N (n + 32) else c.

Definition str_lower (s : string) : string :=
  String.string_of_list_ascii (map lower_char (String.list_ascii_of_string s)).

(** The character class [[a-zA-Z']] of the token pattern. *)
Definition is_token_char (c : ascii) : bool :=
  let n := char_code c in
  (((65 <=? n) && (n <=? 90)) || ((97 <=? n) && (n <=? 122)) || (n =? 39))%N.

(** [re.findall(r"[a-zA-Z']+", s)]: the maximal runs of token characters,
    left to right.  [cur] holds the run being read, reversed. *)
Definition flush_run (cur : list ascii) : list string :=
  match cur with
  | [] => []
  | _ => [String.string_of_list_ascii (rev cur)]
  end.

Fixpoint findall_runs (cs cur : list ascii) : list string :=
  match cs with
  | [] => flush_run cur
  | c :: cs' =>
      if is_token_char c then findall_runs cs' (c :: cur)
      else flush_run cur ++ findall_runs cs' []
  end.

Definition findall_tokens (s : string) : list string :=
  findall_runs (String.list_ascii_of_string s) [].

(** ** The lexicon *)

Definition POSITIVE_WORDS : gset string :=
  list_to_set
    [ "beat"; "breakout"; "bull"; "bullish"; "buy"; "demand"; "gain";
      "green"; "growth"; "higher"; "inflow"; "jump"; "optimism";
      "outperform"; "rally"; "recover"; "resilient"; "rise"; "risk-on";
      "strong"; "surge"; "up" ]%string.

Definition NEGATIVE_WORDS : gset string :=
  list_to_set
    [ "bear"; "bearish"; "crash"; "decline"; "drop"; "fear"; "headwind";
      "lower"; "loss"; "liquidation"; "outflow"; "plunge"; "pressure";
      "risk-off"; "sell"; "selloff"; "slump"; "weak"; "worse" ]%string.

(** [sum(1 for t in tokens if t in words)] *)
Definition count_hits (words : gset string) (tokens : list string) : Z :=
  Z.of_nat (List.length (filter (λ t, t ∈ words) tokens)).

(** [_score_text] *)
Definition tokens_of (text : string) : list string :=
  findall_tokens (str_lower text).

Definition _score_text (text : string) : Q :=
  let tokens := tokens_of text in
  match tokens with
  | [] => 0%Q
  | _ =>
      let positives := count_hits POSITIVE_WORDS tokens in
      let negatives := count_hits NEGATIVE_WORDS tokens in
      if (positives =? 0) && (negatives =? 0) then 0%Q
      else (inject_Z (positives - negatives)
            / inject_Z (Z.max 1 (positives + negatives)))%Q
  end.

(** ** News items and ingestion *)

(** Microseconds since the epoch, UTC. *)
Definition datetime := Z.

Definition MICROS_PER_SECOND : Z := 1000000.
Definition MICROS_PER_DAY : Z := 86400 * MICROS_PER_SECOND.

(** [datetime.fromtimestamp(secs, tz=timezone.utc)] *)
Definition fromtimestamp (secs : Z) : datetime := secs * MICROS_PER_SECOND.

(** [d.date()] for a UTC datetime: the day number since the epoch. *)
Definition date (d : datetime) : Z := d `div` MICROS_PER_DAY.

(** [d - timedelta(hours=h)] *)
Definition minus_hours (d : datetime) (h : Z) : datetime :=
  d - h * 3600 * MICROS_PER_SECOND.

Record NewsItem := mkNewsItem {
  title : string;
  link : string;
  published : datetime;
  summary : string;
  score : Q
}.

(** A feed entry as [feedparser] hands it over.  A parsed time tuple is
    represented by the value [calendar.timegm] gives it; [None] stands for a
    key that is absent (or holds [None]). *)
Record entry := mkEntry {
  published_parsed : option Z;
  updated_parsed : option Z;
  entry_title : option string;
  entry_link : option string;
  entry_summary : option string
}.

(** [_to_datetime] *)
Definition _to_datetime (parsed : option Z) : option datetime :=
  match parsed with
  | None => None
  | Some secs => Some (fromtimestamp secs)
  end.

(** Whitespace of [\s] and of [str.strip] among the characters below 256:
    tab to carriage return, the separators 28..31, the space, the next-line
    character 133 and the no-break space 160. *)
Definition is_space (c : ascii) : bool :=
  let n := char_code c in
  (((9 <=? n) && (n <=? 13)) || ((28 <=? n) && (n <=? 32))
   || (n =? 133) || (n =? 160))%N.

(** [re.sub(r"\s+", " ", s)]; [in_run] tells that the previous character
    was whitespace already replaced. *)
Fixpoint collapse_ws (cs : list ascii) (in_run : bool) : list ascii :=
  match cs with
  | [] => []
  | c :: cs' =>
      if is_space c then
        if in_run then collapse_ws cs' true
        else " "%char :: collapse_ws cs' true
      else c :: collapse_ws cs' false
  end.

Fixpoint lstrip (cs : list ascii) : list ascii :=
  match cs with
  | [] => []
  | c :: cs' => if is_space c then lstrip cs' else cs
  end.

Definition strip (cs : list ascii) : list ascii :=
  rev (lstrip (rev (lstrip cs))).

(** [_clean_text]; the argument is already [text or str()]. *)
Definition _clean_text (text : string) : string :=
  String.string_of_list_ascii
    (strip (collapse_ws (String.list_ascii_of_string text) false)).

(** [a or b] on optional values. *)
Definition py_or {A} (a b : option A) : option A :=
  match a with
  | Some _ => a
  | None => b
  end.

Definition dedupe_key_t : Type := string * string.

(** One pass of the inner loop body of [fetch_news]: [st] is the pair of
    [items] and [seen]. *)
Definition fetch_news_entry (st : list NewsItem * gset dedupe_key_t)
    (e : entry) : list NewsItem * gset dedupe_key_t :=
  let '(items, seen) := st in
  match _to_datetime (py_or (published_parsed e) (updated_parsed e)) with
  | None => st
  | Some published =>
      let title := _clean_text (default EmptyString (entry_title e)) in
      let link := default EmptyString (entry_link e) in
      let summary := _clean_text (default EmptyString (entry_summary e)) in
      let dedupe_key := (str_lower title, link) in
      if bool_decide (title = EmptyString) || bool_decide (dedupe_key ∈ seen)
      then st
      else
        let score := _score_text (title ++ " " ++ summary)%string in
        (items ++ [mkNewsItem title link published summary score],
         {[dedupe_key]} ∪ seen)
  end.

(** [list.sort] is stable; so is this insertion sort.  [precedes] is the
    non-strict order on keys: the head [x], which came first in the input,
    is put in front of the first element it may precede, hence in front of
    the later elements with an equal key. *)
Fixpoint insert_sorted {A} (precedes : A → A → bool) (x : A) (l : list A)
  : list A :=
  match l with
  | [] => [x]
  | y :: l' =>
      if precedes x y then x :: y :: l' else y :: insert_sorted precedes x l'
  end.

Definition stable_sort {A} (precedes : A → A → bool) (l : list A) : list A :=
  foldr (insert_sorted precedes) [] l.

(** [fetch_news] for feeds that answer; [parse url] is the list
    [feedparser.parse(url).entries].  The feeds that may raise are read by
    [fetch_news_io], further down. *)
Definition fetch_news (parse : string → list entry) (sources : list string)
  : list NewsItem :=
  let '(items, _) :=
    foldl (λ st url, foldl fetch_news_entry st (parse url)) ([], ∅) sources in
  stable_sort (λ a b, published b <=? published a) items.

(** ** The recency filter *)

(** [filter_recent] *)
Definition filter_recent (items : list NewsItem) (now : datetime)
    (today_only : bool) : list NewsItem * string :=
  let today_items :=
    filter (λ item, date (published item) = date now) items in
  match today_items with
  | _ :: _ => (today_items, "today"%string)
  | [] =>
      if today_only then ([], "none"%string)
      else
        let cutoff := minus_hours now 24 in
        let recent_items := filter (λ item, cutoff ≤ published item) items in
        (recent_items, "last_24h"%string)
  end.

(** ** Exceptions and the world of the price fetch *)

(** The exceptions.  [OtherException] is any other subclass of
    [Exception]; [BaseExceptionOnly] is an exception outside [Exception]
    (KeyboardInterrupt, SystemExit, GeneratorExit), which a handler for
    [Exception] lets through. *)
#[warnings="-register-all"]
Inductive exn :=
| RequestException (detail : string)
| RuntimeError (msg : string) (cause : option exn)
| ZeroDivisionError
| IndexError
| OtherException (detail : string)
| BaseExceptionOnly (name : string).

Definition fallible (A : Type) : Type := exn + A.

(** Sequencing: an exception ends the computation. *)
#[global] Instance fallible_ret : MRet fallible := λ A a, inr a.
#[global] Instance fallible_bind : MBind fallible := λ A B k r,
  match r with
  | inl e => inl e
  | inr a => k a
  end.

Definition raise {A} (e : exn) : fallible A := inl e.

(** Float division: [a / b]. *)
Definition float_div (a b : Q) : fallible Q :=
  if Qeq_bool b 0 then raise ZeroDivisionError else mret (a / b)%Q.

Definition Qlt_bool (a b : Q) : bool := negb (Qle_bool b a).

(** [max(a, b)] and [min(a, b)] keep the first argument unless the second
    is strictly better. *)
Definition py_max (a b : Q) : Q := if Qlt_bool a b then b else a.
Definition py_min (a b : Q) : Q := if Qlt_bool b a then b else a.

(** The chart document, by the paths the code reads: [None] is an absent
    key; in [close] it is a JSON [null]. *)
Record quote_t := mkQuote { close : option (list (option Q)) }.
Record indicators_t := mkIndicators { quote : option (list quote_t) }.
Record series_t := mkSeries {
  timestamp : option (list Z);
  indicators : option indicators_t
}.
Record chart_body_t := mkChartBody { result : option (list series_t) }.
Record chart_t := mkChart { chart : option chart_body_t }.

(** What one [requests.get] + [raise_for_status] + [json] does. *)
Inductive outcome :=
| Body (doc : chart_t)
| Raises (e : exn).

Inductive event :=
| Request (url : string) (timeout : Z)
| Sleep (seconds : Q).

(** The world: how many requests were sent, and everything that happened,
    oldest first. *)
Record world := mkWorld {
  requests_sent : nat;
  events : list event
}.

Definition world0 : world := mkWorld 0 [].

Definition do_request (url : string) (timeout : Z) (w : world) : world :=
  mkWorld (S (requests_sent w)) (events w ++ [Request url timeout]).

Definition do_sleep (seconds : Q) (w : world) : world :=
  mkWorld (requests_sent w) (events w ++ [Sleep seconds]).

(** [range(lo, hi)] *)
Definition py_range (lo hi : Z) : list Z :=
  map (λ i, lo + Z.of_nat i) (seq 0 (Z.to_nat (hi - lo))).

Section Fetch.

(** The network: the outcome of the n-th request (counting from 0). *)
Variable net : nat → outcome.
Variables (timeout retries : Z).

(** The [for attempt in range(1, retries + 1)] loop of [fetch_json] and
    the [raise] after it. *)
Fixpoint fetch_json_loop (url : string) (attempts : list Z)
    (last_exc : option exn) (w : world) : fallible chart_t * world :=
  match attempts with
  | [] => (inl (RuntimeError ("Failed to fetch " ++ url) last_exc), w)
  | attempt :: rest =>
      let w1 := do_request url timeout w in
      match net (requests_sent w) with
      | Body doc => (inr doc, w1)
      | Raises (RequestException d) =>
          let w2 :=
            if attempt <? retries
            then do_sleep ((3 # 2) * inject_Z attempt) w1
            else w1 in
          fetch_json_loop url rest (Some (RequestException d)) w2
      | Raises e => (inl e, w1)
      end
  end.

Definition fetch_json (url : string) (w : world) : fallible chart_t * world :=
  fetch_json_loop url (py_range 1 (retries + 1)) None w.

End Fetch.

(** ** The price snapshot *)

Record FuturesSnapshot := mkFuturesSnapshot {
  last_price : Q;
  last_close_time : datetime;
  yesterday_close : Q;
  yesterday_close_time : datetime;
  pct_change_since_close : Q;
  avg_abs_daily_return : Q
}.

(** [sum(xs)]: from 0, left to right. *)
Definition py_sum (xs : list Q) : Q := foldl Qplus 0%Q xs.

(** [l[-k]] for [k >= 1]. *)
Definition index_from_end {A} (l : list A) (k : nat) : fallible A :=
  match rev l !! (k - 1)%nat with
  | Some x => mret x
  | None => raise IndexError
  end.

(** The loop that drops the [null] closes. *)
Definition clean_closes (timestamps : list Z) (closes : list (option Q))
  : list (Z * Q) :=
  foldl (λ cleaned '(ts, close),
           match close with
           | None => cleaned
           | Some c => cleaned ++ [(ts, c)]
           end)
        [] (zip timestamps closes).

(** The body of the [returns] loop, by index as the source has it.  The
    division cannot raise: its divisor was just tested positive. *)
Definition returns_step (cleaned : list (Z * Q)) (returns : list Q) (i : Z)
  : list Q :=
  match cleaned !! Z.to_nat (i - 1), cleaned !! Z.to_nat i with
  | Some (_, prev_close), Some (_, close) =>
      if Qlt_bool 0 prev_close
      then returns ++ [Qabs ((close - prev_close) / prev_close)]
      else returns
  | _, _ => returns
  end.

(** [for i in range(1, len(cleaned))] *)
Definition abs_returns (cleaned : list (Z * Q)) : list Q :=
  foldl (returns_step cleaned) []
    (py_range 1 (Z.of_nat (List.length cleaned))).

(** [cleaned.sort(key=lambda item: item[0])] *)
Definition sorted_series (cleaned : list (Z * Q)) : list (Z * Q) :=
  stable_sort (λ a b, a.1 <=? b.1) cleaned.

(** Everything of [fetch_price_snapshot] from [cleaned.sort] on. *)
Definition snapshot_of_cleaned (cleaned0 : list (Z * Q))
  : fallible FuturesSnapshot :=
  let cleaned := sorted_series cleaned0 in
  '(last_close_ts, last_close) ← index_from_end cleaned 1;
  '(yesterday_close_ts, yesterday_close) ← index_from_end cleaned 2;
  let last_close_time := fromtimestamp last_close_ts in
  let yesterday_close_time := fromtimestamp yesterday_close_ts in
  change ← float_div (last_close - yesterday_close) yesterday_close;
  let pct_change_since_close := (change * 100)%Q in
  let returns := abs_returns cleaned in
  let avg_abs_daily_return :=
    match returns with
    | [] => 0%Q
    | _ => (py_sum returns / inject_Z (Z.of_nat (List.length returns)))%Q
    end in
  mret (mkFuturesSnapshot last_close last_close_time
          yesterday_close yesterday_close_time
          pct_change_since_close avg_abs_daily_return).

(** The validation of the document, down to the cleaned series. *)
Definition cleaned_of_chart (doc : chart_t) : fallible (list (Z * Q)) :=
  let result :=
    default [] (result (default (mkChartBody None) (chart doc))) in
  match result with
  | [] => raise (RuntimeError "No chart data returned from Yahoo Finance." None)
  | series :: _ =>
      let timestamps := default [] (timestamp series) in
      let indicators :=
        default [] (quote (default (mkIndicators None) (indicators series))) in
      match timestamps, indicators with
      | _ :: _, quote0 :: _ =>
          let closes := default [] (close quote0) in
          if (List.length closes <? 2)%nat then
            raise (RuntimeError "Not enough close data from Yahoo Finance." None)
          else
            let cleaned := clean_closes timestamps closes in
            if (List.length cleaned <? 2)%nat then
              raise (RuntimeError
                       "Not enough valid close data from Yahoo Finance." None)
            else mret cleaned
      | _, _ =>
          raise (RuntimeError
                   "Yahoo Finance response missing timestamps or prices." None)
      end
  end.

Definition chart_url_of (symbol : string) : string :=
  ("https://query1.finance.yahoo.com/v8/finance/chart/" ++ symbol
   ++ "?range=7d&interval=1d&includePrePost=false")%string.

(** [fetch_price_snapshot] *)
Definition fetch_price_snapshot (net : nat → outcome) (symbol : string)
    (timeout retries : Z) (w : world) : fallible FuturesSnapshot * world :=
  let chart_url := chart_url_of symbol in
  let '(r, w') := fetch_json net timeout retries chart_url w in
  (doc ← r; cleaned ← cleaned_of_chart doc; snapshot_of_cleaned cleaned, w').

(** ** Combining and projecting *)

(** [combine_signal]; the mean divides by a length that is at least 1. *)
Definition combine_signal (news_items : list NewsItem)
    (futures : FuturesSnapshot) : Q :=
  let news_score :=
    match news_items with
    | [] => 0%Q
    | _ => (py_sum (map score news_items)
            / inject_Z (Z.of_nat (List.length news_items)))%Q
    end in
  let price_score :=
    py_max (-1) (py_min 1 (pct_change_since_close futures / 5)) in
  ((7 # 10) * news_score + (3 # 10) * price_score)%Q.

(** [expected_move_pct] *)
Definition expected_move_pct (combined_score : Q) (futures : FuturesSnapshot)
  : Q :=
  let scaled := py_max (-1) (py_min 1 combined_score) in
  (scaled * avg_abs_daily_return futures * 100)%Q.

(** The price target of [format_report] and of [load_data]:
    [futures.yesterday_close * (1 + move_pct / 100.0)]. *)
Definition expected_price (combined_score : Q) (futures : FuturesSnapshot)
  : Q :=
  let move_pct := expected_move_pct combined_score futures in
  (yesterday_close futures * (1 + move_pct / 100))%Q.

(** ** The projection in rounded arithmetic

    The same two lines with every float operation rounded: [fl] turns the
    exact result of an operation into the float that is stored.  [max] and
    [min] pick one of their arguments and round nothing. *)

Section Rounded.

Variable fl : Q → Q.

(** [expected_move_pct]: [scaled * futures.avg_abs_daily_return * 100.0],
    left to right. *)
Definition expected_move_pct_rnd (combined_score : Q)
    (futures : FuturesSnapshot) : Q :=
  let scaled := py_max (-1) (py_min 1 combined_score) in
  fl (fl (scaled * avg_abs_daily_return futures) * 100).

(** [futures.yesterday_close * (1 + move_pct / 100.0)] *)
Definition expected_price_rnd (combined_score : Q)
    (futures : FuturesSnapshot) : Q :=
  let move_pct := expected_move_pct_rnd combined_score futures in
  fl (yesterday_close futures * fl (1 + fl (move_pct / 100))).

(** The two sides of the round trip, computed in floats as well:
    [expected_price / yesterday_close - 1] and [expected_move_pct / 100]. *)
Definition round_trip_left (combined_score : Q) (futures : FuturesSnapshot)
  : Q :=
  fl (fl (expected_price_rnd combined_score futures
          / yesterday_close futures) - 1).

Definition round_trip_right (combined_score : Q) (futures : FuturesSnapshot)
  : Q :=
  fl (expected_move_pct_rnd combined_score futures / 100).

End Rounded.

(** ** The projection on binary64

    The same two lines on the floats of the machine, which are the floats
    of Python. *)

Definition py_max_b64 (a b : float) : float :=
  if PrimFloat.ltb a b then b else a.

Definition py_min_b64 (a b : float) : float :=
  if PrimFloat.ltb b a then b else a.

Definition expected_move_pct_b64 (combined_score avg_abs_daily_return : float)
  : float :=
  let scaled := py_max_b64 (-1) (py_min_b64 1 combined_score) in
  (scaled * avg_abs_daily_return * 100)%float.

Definition expected_price_b64 (yesterday_close move_pct : float) : float :=
  (yesterday_close * (1 + move_pct / 100))%float.

(** * The vocabulary of the statements

    The notions the design document states its properties with, defined
    here on their own, apart from the code above. *)

(** What the scorer promises of a score [s] for [p] positive and [n]
    negative hits. *)
Definition score_facts (p n : Z) (s : Q) : Prop :=
  (-1 <= s <= 1)%Q
  ∧ (p = 0 → n = 0 → (s == 0)%Q)
  ∧ (0 < p → n = 0 → (s == 1)%Q)
  ∧ (p = 0 → 0 < n → (s == -1)%Q)
  ∧ (0 < p + n → (s == inject_Z (p - n) / inject_Z (p + n))%Q).

(** The tokens in the words of the design: the maximal runs of ASCII
    letters and apostrophes of the text, case-folded. *)

(** The characters of a word: the ASCII letters and the apostrophe. *)
Definition word_char (c : ascii) : Prop :=
  ((65 ≤ char_code c ≤ 90) ∨ (97 ≤ char_code c ≤ 122) ∨ char_code c = 39)%N.

#[global] Instance word_char_dec c : Decision (word_char c).
Proof. unfold word_char. apply _. Defined.

(** A run has ended: the text is over, or goes on with a character of
    another kind. *)
Definition run_ends (cs : list ascii) : Prop :=
  match cs with
  | [] => True
  | c :: _ => ¬ word_char c
  end.

(** The maximal runs of word characters of a text, left to right. *)
Inductive word_runs : list ascii → list (list ascii) → Prop :=
| word_runs_end : word_runs [] []
| word_runs_skip c cs runs :
    ¬ word_char c → word_runs cs runs → word_runs (c :: cs) runs
| word_runs_run run cs runs :
    run ≠ [] → Forall word_char run → run_ends cs → word_runs cs runs →
    word_runs (run ++ cs) (run :: runs).

(** Case folding of a word character: a capital letter becomes small. *)
Definition fold_case (c : ascii) : ascii :=
  if decide (65 ≤ char_code c ≤ 90)%N then ascii_of_N (char_code c + 32)
  else c.

Definition folded (run : list ascii) : string :=
  String.string_of_list_ascii (map fold_case run).

(** [words] are the tokens of [text]. *)
Definition tokenizes (text : string) (words : list string) : Prop :=
  ∃ runs, word_runs (String.list_ascii_of_string text) runs
          ∧ words = map folded runs.

(** How many of the words are in a word set. *)
Fixpoint hits (lexicon : gset string) (words : list string) : Z :=
  match words with
  | [] => 0
  | word :: rest =>
      (if decide (word ∈ lexicon) then 1 else 0) + hits lexicon rest
  end.

(** The policy in the words of the design: the items of the reference day
    if there are any; else nothing when only today is wanted; else the
    items no older than 24 hours. *)
Definition on_reference_day (now : datetime) (item : NewsItem) : Prop :=
  date (published item) = date now.

Definition not_older_than_24h (now : datetime) (item : NewsItem) : Prop :=
  now - 24 * 3600 * 1000000 ≤ published item.

#[global] Instance on_reference_day_dec now item :
  Decision (on_reference_day now item).
Proof. unfold on_reference_day. apply _. Defined.

#[global] Instance not_older_than_24h_dec now item :
  Decision (not_older_than_24h now item).
Proof. unfold not_older_than_24h. apply _. Defined.

(** A headline with no link and no summary, for the examples. *)
Definition headline (secs : Z) (t : string) : NewsItem :=
  mkNewsItem t EmptyString (fromtimestamp secs) EmptyString (_score_text t).

(** A failed attempt that is not the last: the request, then the wait. *)
Definition attempt_then_wait (url : string) (timeout attempt : Z)
  : list event :=
  [Request url timeout; Sleep ((3 # 2) * inject_Z attempt)].

(** [clamp x lo hi]: [x] brought into the interval from [lo] to [hi]. *)
Definition clamp (x lo hi : Q) : Q :=
  if Qlt_le_dec x lo then lo
  else if Qlt_le_dec hi x then hi
  else x.

(** The arithmetic mean of a non-empty list. *)
Definition mean (xs : list Q) : Q :=
  (foldr Qplus 0 xs / inject_Z (Z.of_nat (List.length xs)))%Q.

(** The news score of the design: the mean of the item scores, 0 for no
    item. *)
Definition news_score (items : list NewsItem) : Q :=
  match items with
  | [] => 0%Q
  | _ => mean (map score items)
  end.

(** A rounding whose relative error is at most [u]: what binary64 does,
    with [u] = 2^-53, to a result it neither overflows nor underflows on. *)
Definition rounds_within (u : Q) (fl : Q → Q) : Prop :=
  ∀ x, (Qabs (fl x - x) <= u * Qabs x)%Q.

(** How far the two sides of the round trip may be apart when the right
    side is [a]: one rounding of [a], and the roundings of the sum, the
    product and the quotient on the way to the left side, each of them
    rounded once more by the subtraction. *)
Definition round_trip_tolerance (u a : Q) : Q :=
  (u * Qabs a
   + (1 + u) * ((1 + u) * (1 + u) * (1 + u) - 1) * Qabs (1 + a))%Q.


(** The identity of an item for deduplication. *)
Definition item_key (item : NewsItem) : dedupe_key_t :=
  (str_lower (title item), link item).

(** The item an entry stands for when it survives on its own: it has a
    publication time and a title. *)
Definition entry_item (e : entry) : option NewsItem :=
  match _to_datetime (py_or (published_parsed e) (updated_parsed e)) with
  | None => None
  | Some published =>
      let title := _clean_text (default EmptyString (entry_title e)) in
      let link := default EmptyString (entry_link e) in
      let summary := _clean_text (default EmptyString (entry_summary e)) in
      if bool_decide (title = EmptyString) then None
      else Some (mkNewsItem title link published summary
                   (_score_text (title ++ " " ++ summary)%string))
  end.

(** The surviving entries of all sources, in source order and, within a
    source, in entry order. *)
Definition surviving_items (parse : string → list entry)
    (sources : list string) : list NewsItem :=
  omap entry_item (concat (map parse sources)).

(** * The loops in recursive form

    What the loops of [fetch_price_snapshot] and [fetch_news] compute,
    written by recursion on the list; the proofs relate the loops to
    them. *)

(** The [returns] loop unrolled along the close series. *)
Fixpoint code_returns (closes : list Q) : list Q :=
  match closes with
  | [] => []
  | prev_close :: rest =>
      match rest with
      | [] => []
      | close :: _ =>
          (if Qlt_bool 0 prev_close
           then [Qabs ((close - prev_close) / prev_close)] else [])
          ++ code_returns rest
      end
  end.

(** What the loop keeps of a list of survivors, and the keys it has seen
    afterwards, when it starts with the keys [seen]. *)
Fixpoint dedupe_from (seen : gset dedupe_key_t) (candidates : list NewsItem)
  : list NewsItem :=
  match candidates with
  | [] => []
  | item :: rest =>
      if decide (item_key item ∈ seen) then dedupe_from seen rest
      else item :: dedupe_from ({[item_key item]} ∪ seen) rest
  end.

Fixpoint seen_after (seen : gset dedupe_key_t) (candidates : list NewsItem)
  : gset dedupe_key_t :=
  match candidates with
  | [] => seen
  | item :: rest =>
      if decide (item_key item ∈ seen) then seen_after seen rest
      else seen_after ({[item_key item]} ∪ seen) rest
  end.

(** * Data for the examples *)

(** A well-formed chart document with one series. *)
Definition chart_with_closes (timestamps : list Z) (closes : list (option Q))
  : chart_t :=
  mkChart (Some (mkChartBody (Some
    [mkSeries (Some timestamps)
       (Some (mkIndicators (Some [mkQuote (Some closes)])))]))).

(** A network that always answers with the same document. *)
Definition always (doc : chart_t) : nat → outcome := λ _, Body doc.

(** Two feeds: the second repeats the first headline of the first, in other
    letter case, twice; one entry has no time. *)
Definition demo_parse (url : string) : list entry :=
  if String.eqb url "a" then
    [ mkEntry (Some 1699920000) None (Some "Bitcoin  Rally ")
        (Some "http://x/1") (Some "strong demand");
      mkEntry None None (Some "No time") (Some "http://x/3") None;
      mkEntry (Some 1699925000) None (Some "Miners sell")
        (Some "http://x/2") None ]
  else
    [ mkEntry None (Some 1699930000) (Some "bitcoin rally")
        (Some "http://x/1") (Some "copy");
      mkEntry (Some 1699940000) None (Some "BITCOIN RALLY")
        (Some "http://x/1") None ].

Definition demo_first : NewsItem :=
  mkNewsItem "Bitcoin Rally" "http://x/1" (fromtimestamp 1699920000)
    "strong demand" (_score_text "Bitcoin Rally strong demand").

Definition demo_snapshot : FuturesSnapshot :=
  mkFuturesSnapshot 110 2000000 100 1000000 (1000 # 100) (10 # 100).

(** A week of closes, oldest first. *)
Definition demo_week : chart_t :=
  chart_with_closes [1; 2; 3; 4; 5; 6; 7]
    [Some 100%Q; Some 102%Q; Some 101%Q; Some 105%Q; Some 103%Q; Some 107%Q;
     Some 104%Q].

(** An item with a given score, published at the epoch. *)
Definition scored_item (s : Q) : NewsItem :=
  mkNewsItem "t" EmptyString 0 EmptyString s.

(** The characters of a text. *)
Definition chars (s : string) : list ascii := String.list_ascii_of_string s.

(** The unit roundoff of binary64. *)
Definition UNIT_ROUNDOFF : Q := 1 # (2 ^ 53).

(** A rounding that moves every result away from 0 by the unit roundoff. *)
Definition round_away (x : Q) : Q := (x * (1 + UNIT_ROUNDOFF))%Q.

(** The float of the literal 0.1. *)
Definition B64_TENTH : float := 0x1.999999999999ap-4%float.


(** * Further code: the rest of [main.py] and [app.py] *)

(** ** Vocabulary for cleaned text and tokens *)

(** A text in the form [_clean_text] leaves it in: the only whitespace is
    the plain space, never first, never last, never twice in a row. *)
Definition clean_form (cs : list ascii) : Prop :=
  Forall (λ c, is_space c = true → c = " "%char) cs
  ∧ (∀ post, cs ≠ " "%char :: post)
  ∧ (∀ pre, cs ≠ pre ++ [" "%char])
  ∧ (∀ pre post, cs ≠ pre ++ " "%char :: " "%char :: post).

(** A lowercase letter or the apostrophe. *)
Definition is_lower_token_char (c : ascii) : bool :=
  let n := char_code c in
  (((97 <=? n) && (n <=? 122)) || (n =? 39))%N.

From stdpp Require Import sorting.

Open Scope Z_scope.

(** ** Vocabulary for order *)

(** Newest first. *)
Definition newer_or_same (a b : NewsItem) : Prop :=
  published b ≤ published a.

(** Oldest first, by timestamp. *)
Definition earlier_or_same (a b : Z * Q) : Prop := a.1 ≤ b.1.

(** ** Vocabulary for the event log *)

(** The seconds slept in a log. *)
Definition total_sleep (evs : list event) : Q :=
  foldr (λ ev acc, match ev with
                   | Sleep seconds => (seconds + acc)%Q
                   | Request _ _ => acc
                   end) 0%Q evs.

(** A transport error, the kind [fetch_json] retries. *)
Definition is_transport_error (o : outcome) : Prop :=
  ∃ detail, o = Raises (RequestException detail).

(** What an outcome that is not a transport error makes of the call. *)
Definition settled (o : outcome) : fallible chart_t :=
  match o with
  | Body doc => inr doc
  | Raises e => inl e
  end.

(** ** Vocabulary for the chart document *)

(** The four errors of a document of the wrong shape. *)
Definition SHAPE_ERRORS : list string :=
  [ "No chart data returned from Yahoo Finance.";
    "Yahoo Finance response missing timestamps or prices.";
    "Not enough close data from Yahoo Finance.";
    "Not enough valid close data from Yahoo Finance." ]%string.

(** ** Classification *)

(** [classify_signal] of [app.py] *)
Definition classify_signal (score : Q) : string * string :=
  if Qle_bool (15 # 100) score then ("Bullish", "increase")%string
  else if Qle_bool score (-15 # 100) then ("Bearish", "decrease")%string
  else ("Neutral", "move sideways")%string.

(** The words [format_report] chooses before it builds its lines:
    sentiment, long bias, short bias and direction. *)
Record report_words := mkReportWords {
  sentiment : string;
  long_bias : string;
  short_bias : string;
  direction : string
}.

Definition format_report_words (combined_score : Q) : report_words :=
  if Qle_bool (15 # 100) combined_score then
    mkReportWords "bullish" "favored" "disfavored" "increase"
  else if Qle_bool combined_score (-15 # 100) then
    mkReportWords "bearish" "disfavored" "favored" "decrease"
  else
    mkReportWords "neutral" "balanced" "balanced" "flat to mixed".

(** ** The two front ends *)

(** What [load_data] of [app.py] returns. *)
Record loaded := mkLoaded {
  loaded_now : datetime;
  loaded_filtered : list NewsItem;
  loaded_window_label : string;
  loaded_futures : FuturesSnapshot;
  loaded_combined_score : Q;
  loaded_move_pct : Q;
  loaded_expected_price : Q
}.

(** [fetch_news] as the front ends run it.  [feed url] is what
    [feedparser.parse(url, ...)] does: it hands over the entries of the
    feed or it raises, and nothing around the call handles the exception,
    so it leaves the loop and [fetch_news] at once.  [st] is the pair of
    [items] and [seen]. *)
Fixpoint fetch_news_loop (feed : string → fallible (list entry))
    (sources : list string) (st : list NewsItem * gset dedupe_key_t)
  : fallible (list NewsItem * gset dedupe_key_t) :=
  match sources with
  | [] => mret st
  | url :: rest =>
      entries ← feed url;
      fetch_news_loop feed rest (foldl fetch_news_entry st entries)
  end.

Definition fetch_news_io (feed : string → fallible (list entry))
    (sources : list string) : fallible (list NewsItem) :=
  '(items, _) ← fetch_news_loop feed sources ([], ∅);
  mret (stable_sort (λ a b, published b <=? published a) items).

(** The entries a feed hands over; none for a feed that raises. *)
Definition entries_of (feed : string → fallible (list entry)) (url : string)
  : list entry :=
  match feed url with
  | inr entries => entries
  | inl _ => []
  end.

(** The exception of the first source, in order, whose feed raises. *)
Fixpoint first_feed_error (feed : string → fallible (list entry))
    (sources : list string) : option exn :=
  match sources with
  | [] => None
  | url :: rest =>
      match feed url with
      | inl exc => Some exc
      | inr _ => first_feed_error feed rest
      end
  end.

(** Feeds that all answer. *)
Definition answering (parse : string → list entry)
  : string → fallible (list entry) :=
  λ url, inr (parse url).

(** Feeds of which one raises. *)
Definition failing_at (bad : string) (exc : exn)
    (parse : string → list entry) : string → fallible (list entry) :=
  λ url, if String.eqb url bad then inl exc else inr (parse url).

(** What [except Exception] catches. *)
Definition is_Exception (exc : exn) : bool :=
  match exc with
  | BaseExceptionOnly _ => false
  | _ => true
  end.

(** [load_data]; [now] is what the clock says, [feed] what the feeds do
    and [net] what the chart endpoint answers.  Nothing is handled here: an
    exception of a feed ends the call before the price is asked for. *)
Definition load_data (now : datetime) (feed : string → fallible (list entry))
    (net : nat → outcome) (w : world) : fallible loaded * world :=
  match fetch_news_io feed RSS_SOURCES with
  | inl exc => (inl exc, w)
  | inr news =>
      let '(filtered, window_label) := filter_recent news now true in
      let '(r, w') := fetch_price_snapshot net YAHOO_SYMBOL 25 3 w in
      (futures ← r;
       let combined_score := combine_signal filtered futures in
       let move_pct := expected_move_pct combined_score futures in
       let expected_price :=
         (yesterday_close futures * (1 + move_pct / 100))%Q in
       mret (mkLoaded now filtered window_label futures combined_score
               move_pct expected_price),
       w')
  end.

(** The arguments [main] hands to [format_report]. *)
Record report_args := mkReportArgs {
  report_news_items : list NewsItem;
  report_source_label : string;
  report_futures : FuturesSnapshot;
  report_combined_score : Q;
  report_now : datetime;
  report_limit : Z
}.

(** What [main] prints: the report of these arguments on the standard
    output, or the message about this exception on the standard error. *)
Inductive printed :=
| Report (args : report_args)
| FetchFailure (exc : exn).

(** [items[:n]] for [n >= 0]. *)
Definition py_take {A} (n : Z) (items : list A) : list A :=
  take (Z.to_nat n) items.

(** [main]: the exit status and what is printed, or the exception that
    leaves it.  The feeds are read outside the [try]; inside it, only what
    is an [Exception] is caught. *)
Definition main (now : datetime) (feed : string → fallible (list entry))
    (net : nat → outcome) (w : world) : fallible (Z * printed) * world :=
  let max_articles := 40 in
  let timeout := 25 in
  let retries := 3 in
  match fetch_news_io feed RSS_SOURCES with
  | inl exc => (inl exc, w)
  | inr news =>
      let '(filtered, window_label) := filter_recent news now true in
      let filtered := py_take max_articles filtered in
      match fetch_price_snapshot net YAHOO_SYMBOL timeout retries w with
      | (inl exc, w') =>
          if is_Exception exc then (inr (1, FetchFailure exc), w')
          else (inl exc, w')
      | (inr futures, w') =>
          let combined_score := combine_signal filtered futures in
          (inr (0, Report (mkReportArgs filtered window_label futures
                             combined_score now (Z.min 10 max_articles))),
           w')
      end
  end.
(** * Properties *)

(** ** Numbers *)

Lemma Qlt_bool_iff (a b : Q) : Qlt_bool a b = true ↔ (a < b)%Q.
Proof.
  unfold Qlt_bool. rewrite negb_true_iff, <- not_true_iff_false, Qle_bool_iff.
  split; [apply Qnot_le_lt|apply Qlt_not_le].
Qed.

Lemma Qlt_bool_spec (a b : Q) : reflect (a < b)%Q (Qlt_bool a b).
Proof. apply iff_reflect. symmetry. apply Qlt_bool_iff. Qed.

Lemma py_clamp (x lo hi : Q) :
  (lo <= hi)%Q → (py_max lo (py_min hi x) == clamp x lo hi)%Q.
Proof.
  intros Hlohi. unfold py_max, py_min, clamp.
  destruct (Qlt_bool_spec x hi) as [Hxhi|Hxhi];
    [destruct (Qlt_bool_spec lo x) as [Hlox|Hlox]
    |destruct (Qlt_bool_spec lo hi) as [Hlh|Hlh]];
    destruct (Qlt_le_dec x lo); try destruct (Qlt_le_dec hi x); lra.
Qed.

Lemma foldl_Qplus (xs : list Q) (a : Q) :
  (foldl Qplus a xs == a + foldr Qplus 0 xs)%Q.
Proof.
  revert a. induction xs as [|x xs IH]; intros a; cbn [foldl foldr].
  - ring.
  - rewrite IH. ring.
Qed.

Lemma py_sum_foldr (xs : list Q) : (py_sum xs == foldr Qplus 0 xs)%Q.
Proof. unfold py_sum. rewrite foldl_Qplus. ring. Qed.

(** ** The lexicon score *)

Example tokens_ex :
  tokens_of "Bitcoin's RALLY: up 5%, risk-on!" =
  ["bitcoin's"; "rally"; "up"; "risk"; "on"]%string.
Proof. vm_compute. reflexivity. Qed.

Example score_ex1 :
  _score_text "Bitcoin rally fades as sell pressure and fear rise"
  = ((-1) # 5)%Q.
Proof. vm_compute. reflexivity. Qed.

Lemma count_hits_nonneg words tokens : 0 ≤ count_hits words tokens.
Proof. unfold count_hits. lia. Qed.

Lemma inject_Z_nonzero (b : Z) : b ≠ 0 → ¬ (inject_Z b == 0)%Q.
Proof. intros Hb H. apply Hb. apply inject_Z_injective. exact H. Qed.

Lemma inject_Z_ratio_bounds (a b : Z) :
  0 < b → - b ≤ a ≤ b → (-1 <= inject_Z a / inject_Z b <= 1)%Q.
Proof.
  intros Hb [Hlo Hhi].
  assert (Hb' : (0 < inject_Z b)%Q) by (rewrite (Zlt_Qlt 0 b) in Hb; exact Hb).
  split.
  - apply Qle_shift_div_l; [exact Hb'|].
    assert (E : (-1 * inject_Z b == inject_Z (- b))%Q)
      by (rewrite inject_Z_opp; ring).
    rewrite E, <- Zle_Qle. exact Hlo.
  - apply Qle_shift_div_r; [exact Hb'|].
    rewrite Qmult_1_l, <- Zle_Qle. exact Hhi.
Qed.

Lemma inject_Z_ratio_self (b : Z) : b ≠ 0 → (inject_Z b / inject_Z b == 1)%Q.
Proof. intros Hb. field. by apply inject_Z_nonzero. Qed.

(** The conjuncts of [score_facts] that hold by contradiction of their
    premises, or by reflexivity. *)
Ltac score_cases := repeat split; intros; try lia; try reflexivity.

Lemma score_facts_zero : score_facts 0 0 0.
Proof. unfold score_facts. score_cases; lra. Qed.

Lemma score_facts_ratio (p n : Z) :
  0 ≤ p → 0 ≤ n →
  score_facts p n
    (if (p =? 0) && (n =? 0) then 0%Q
     else (inject_Z (p - n) / inject_Z (Z.max 1 (p + n)))%Q).
Proof.
  intros Hp Hn. unfold score_facts.
  destruct (Z.eqb_spec p 0) as [Ep|Ep]; destruct (Z.eqb_spec n 0) as [En|En];
    cbn [andb].
  - score_cases; lra.
  - subst p. replace (Z.max 1 (0 + n)) with (0 + n) by lia.
    split; [apply inject_Z_ratio_bounds; lia|]. score_cases.
    replace (0 - n) with (- (0 + n)) by lia. rewrite inject_Z_opp.
    field. apply inject_Z_nonzero. lia.
  - subst n. replace (Z.max 1 (p + 0)) with (p + 0) by lia.
    split; [apply inject_Z_ratio_bounds; lia|]. score_cases.
    replace (p - 0) with (p + 0) by lia.
    apply inject_Z_ratio_self. lia.
  - replace (Z.max 1 (p + n)) with (p + n) by lia.
    split; [apply inject_Z_ratio_bounds; lia|]. score_cases.
Qed.

(** The tokens of the design are the tokens of the code: lowering the
    text first and cutting it into runs afterwards gives the case-folded
    runs of the text. *)
Lemma word_char_token (c : ascii) :
  bool_decide (word_char c) = is_token_char (lower_char c).
Proof.
  destruct c as [b0 b1 b2 b3 b4 b5 b6 b7].
  destruct b0, b1, b2, b3, b4, b5, b6, b7; vm_compute; reflexivity.
Qed.

Lemma word_char_fold (c : ascii) : word_char c → lower_char c = fold_case c.
Proof.
  intros Hc. pose proof (bool_decide_eq_true_2 (word_char c) Hc) as Hb.
  clear Hc. revert Hb.
  destruct c as [b0 b1 b2 b3 b4 b5 b6 b7].
  destruct b0, b1, b2, b3, b4, b5, b6, b7; vm_compute; intros H;
    first [reflexivity | discriminate H].
Qed.

Lemma hits_count_hits (lexicon : gset string) (words : list string) :
  hits lexicon words = count_hits lexicon words.
Proof.
  unfold count_hits. induction words as [|word rest IH]; [reflexivity|].
  cbn [hits]. rewrite filter_cons, IH.
  destruct (decide (word ∈ lexicon)); cbn [List.length]; lia.
Qed.

Lemma findall_runs_run (run : list ascii) :
  ∀ rest cur,
    Forall word_char run →
    findall_runs (map lower_char run ++ rest) cur
    = findall_runs rest (rev (map fold_case run) ++ cur).
Proof.
  induction run as [|c run IH]; intros rest cur Hrun; [reflexivity|].
  apply Forall_cons in Hrun as [Hc Hrun].
  cbn [map app findall_runs].
  rewrite <- word_char_token, (bool_decide_eq_true_2 _ Hc).
  rewrite IH by exact Hrun. rewrite (word_char_fold c Hc).
  cbn [rev]. rewrite <- app_assoc. reflexivity.
Qed.

Lemma findall_runs_flush (cs cur : list ascii) :
  run_ends cs →
  findall_runs (map lower_char cs) cur
  = flush_run cur ++ findall_runs (map lower_char cs) [].
Proof.
  destruct cs as [|c cs]; cbn [run_ends map findall_runs]; intros Hend.
  - cbn [flush_run]. rewrite app_nil_r. reflexivity.
  - rewrite <- word_char_token, (bool_decide_eq_false_2 _ Hend).
    reflexivity.
Qed.

Lemma word_runs_findall (cs : list ascii) (runs : list (list ascii)) :
  word_runs cs runs →
  findall_runs (map lower_char cs) [] = map folded runs.
Proof.
  induction 1 as [|c cs runs Hc _ IH|run cs runs Hne Hrun Hend _ IH].
  - reflexivity.
  - cbn [map findall_runs].
    rewrite <- word_char_token, (bool_decide_eq_false_2 _ Hc). exact IH.
  - rewrite map_app, findall_runs_run by exact Hrun.
    rewrite findall_runs_flush by exact Hend. rewrite IH, app_nil_r.
    cbn [map]. unfold folded at 1.
    destruct run as [|c run]; [contradiction|].
    destruct (rev (map fold_case (c :: run))) as [|x l] eqn:Erev.
    + apply (f_equal (@List.length ascii)) in Erev.
      rewrite length_rev in Erev. discriminate Erev.
    + cbn [flush_run]. rewrite <- Erev, rev_involutive. reflexivity.
Qed.

Lemma tokenizes_tokens_of (text : string) (words : list string) :
  tokenizes text words → tokens_of text = words.
Proof.
  intros (runs & Hruns & ->). unfold tokens_of, findall_tokens, str_lower.
  rewrite String.list_ascii_of_string_of_list_ascii.
  by apply word_runs_findall.
Qed.

(** Every text starts with a run, possibly empty, that ends where the rest
    begins. *)
Lemma leading_run (cs : list ascii) :
  ∃ run rest, cs = run ++ rest ∧ Forall word_char run ∧ run_ends rest
              ∧ (∀ c cs', cs = c :: cs' → word_char c → run ≠ []).
Proof.
  induction cs as [|c cs (run & rest & -> & Hrun & Hend & _)].
  - exists [], []. repeat split; [constructor|intros ? ? [=]].
  - destruct (decide (word_char c)) as [Hc|Hc].
    + exists (c :: run), rest. repeat split;
        [by constructor|exact Hend|discriminate].
    + exists [], (c :: run ++ rest). repeat split;
        [constructor|exact Hc|].
      intros c' cs' [= <- _] Hc'. contradiction.
Qed.

Lemma word_runs_total (cs : list ascii) : ∃ runs, word_runs cs runs.
Proof.
  remember (List.length cs) as n eqn:Hn. revert cs Hn.
  induction n as [n IH] using lt_wf_ind. intros cs ->.
  destruct cs as [|c cs]; [exists []; constructor|].
  destruct (decide (word_char c)) as [Hc|Hc].
  - destruct (leading_run (c :: cs))
      as (run & rest & Heq & Hrun & Hend & Hne).
    specialize (Hne c cs eq_refl Hc).
    destruct (IH (List.length rest)) with (cs := rest) as [runs Hruns];
      [|reflexivity|].
    { rewrite Heq, length_app. destruct run; [contradiction|cbn; lia]. }
    exists (run :: runs). rewrite Heq. by constructor.
  - destruct (IH (List.length cs)) with (cs := cs) as [runs Hruns];
      [cbn; lia|reflexivity|].
    exists runs. by constructor.
Qed.

Lemma tokenizes_total (text : string) : ∃ words, tokenizes text words.
Proof.
  destruct (word_runs_total (String.list_ascii_of_string text)) as [runs H].
  exists (map folded runs), runs. by split.
Qed.

(** C5: every text has tokens, its maximal runs of ASCII letters and
    apostrophes, case-folded; and with [p] of them in the positive word set
    and [n] in the negative one, the lexicon score lies in [-1, 1], is 0
    when there is no hit, 1 when there are positive hits only, -1 when
    there are negative hits only, and in every case with a hit it is
    (p - n) / (p + n). *)
Theorem score_text_spec (text : string) :
  (∃ words, tokenizes text words)
  ∧ ∀ words, tokenizes text words →
      let p := hits POSITIVE_WORDS words in
      let n := hits NEGATIVE_WORDS words in
      let s := _score_text text in
      (-1 <= s <= 1)%Q
      ∧ (p = 0 → n = 0 → (s == 0)%Q)
      ∧ (0 < p → n = 0 → (s == 1)%Q)
      ∧ (p = 0 → 0 < n → (s == -1)%Q)
      ∧ (0 < p + n → (s == inject_Z (p - n) / inject_Z (p + n))%Q).
Proof.
  split; [apply tokenizes_total|].
  intros words Hwords. cbv zeta. rewrite !hits_count_hits.
  apply tokenizes_tokens_of in Hwords. unfold _score_text.
  rewrite Hwords. destruct words as [|t ts].
  - apply score_facts_zero.
  - apply score_facts_ratio; apply count_hits_nonneg.
Qed.

(** A goal that is decided by computing. *)
Ltac decide_now :=
  match goal with
  | |- ?P => apply (bool_decide_eq_true_1 P); vm_compute; reflexivity
  end.

(** "Strong demand, BTC up" has the four tokens strong, demand, btc and
    up; three of them are positive words and none is negative, so the score
    is 1. *)
Lemma score_text_spec_witness :
  tokenizes "Strong demand, BTC up" ["strong"; "demand"; "btc"; "up"]%string
  ∧ hits POSITIVE_WORDS ["strong"; "demand"; "btc"; "up"]%string = 3
  ∧ hits NEGATIVE_WORDS ["strong"; "demand"; "btc"; "up"]%string = 0
  ∧ (_score_text "Strong demand, BTC up" == 1)%Q.
Proof.
  assert (Hwords : tokenizes "Strong demand, BTC up"
                     ["strong"; "demand"; "btc"; "up"]%string).
  { exists [chars "Strong"; chars "demand"; chars "BTC"; chars "up"].
    split; [|vm_compute; reflexivity].
    apply (word_runs_run (chars "Strong") (chars " demand, BTC up"));
      [discriminate|decide_now|decide_now|].
    apply word_runs_skip; [decide_now|].
    apply (word_runs_run (chars "demand") (chars ", BTC up"));
      [discriminate|decide_now|decide_now|].
    apply word_runs_skip; [decide_now|].
    apply word_runs_skip; [decide_now|].
    apply (word_runs_run (chars "BTC") (chars " up"));
      [discriminate|decide_now|decide_now|].
    apply word_runs_skip; [decide_now|].
    apply (word_runs_run (chars "up") []);
      [discriminate|decide_now|exact I|].
    apply word_runs_end. }
  assert (Hp : hits POSITIVE_WORDS
                 ["strong"; "demand"; "btc"; "up"]%string = 3)
    by (vm_compute; reflexivity).
  assert (Hn : hits NEGATIVE_WORDS
                 ["strong"; "demand"; "btc"; "up"]%string = 0)
    by (vm_compute; reflexivity).
  split; [exact Hwords|]. split; [exact Hp|]. split; [exact Hn|].
  destruct (proj2 (score_text_spec "Strong demand, BTC up") _ Hwords)
    as (_ & _ & Hpos & _).
  apply Hpos; [rewrite Hp; lia|exact Hn].
Defined.

Example score_only_positive : (_score_text "Strong demand, BTC up" == 1)%Q.
Proof. vm_compute. reflexivity. Qed.

Example score_only_negative : (_score_text "Fear and liquidation" == -1)%Q.
Proof. vm_compute. reflexivity. Qed.

Example score_no_hits : (_score_text "Bitcoin trades sideways" == 0)%Q.
Proof. vm_compute. reflexivity. Qed.

(** ** Text cleaning *)

Example clean_text_ex :
  _clean_text (String "009" "  BTC   jumps " ++ String "010" " 5% ")
  = "BTC jumps 5%"%string.
Proof. vm_compute. reflexivity. Qed.

(** ** Ingestion and deduplication *)

Lemma fetch_news_entry_spec (items : list NewsItem) (seen : gset dedupe_key_t)
    (e : entry) :
  fetch_news_entry (items, seen) e =
    match entry_item e with
    | None => (items, seen)
    | Some item =>
        if decide (item_key item ∈ seen) then (items, seen)
        else (items ++ [item], {[item_key item]} ∪ seen)
    end.
Proof.
  unfold fetch_news_entry, entry_item.
  destruct (_to_datetime _) as [published|]; [|reflexivity].
  cbv zeta.
  destruct (bool_decide_reflect
              (_clean_text (default EmptyString (entry_title e)) = EmptyString))
    as [Hempty|Hfull]; cbn [orb]; [reflexivity|].
  unfold item_key at 1. cbn [title link].
  destruct (decide _) as [Hin|Hout].
  - rewrite bool_decide_eq_true_2 by exact Hin. reflexivity.
  - rewrite bool_decide_eq_false_2 by exact Hout. reflexivity.
Qed.

Lemma omap_cons {A B} (f : A → option B) (x : A) (l : list A) :
  omap f (x :: l) =
    match f x with
    | Some y => y :: omap f l
    | None => omap f l
    end.
Proof. reflexivity. Qed.

Lemma fetch_news_entries (entries : list entry) :
  ∀ (items : list NewsItem) (seen : gset dedupe_key_t),
    foldl fetch_news_entry (items, seen) entries =
      (items ++ dedupe_from seen (omap entry_item entries),
       seen_after seen (omap entry_item entries)).
Proof.
  induction entries as [|e entries IH]; intros items seen; cbn [foldl].
  - cbn. rewrite app_nil_r. reflexivity.
  - rewrite fetch_news_entry_spec, omap_cons.
    destruct (entry_item e) as [item|]; [|apply IH].
    cbn [dedupe_from seen_after].
    destruct (decide (item_key item ∈ seen)); [apply IH|].
    rewrite IH, <- app_assoc. reflexivity.
Qed.

Lemma seen_after_app (xs ys : list NewsItem) :
  ∀ seen, seen_after seen (xs ++ ys) = seen_after (seen_after seen xs) ys.
Proof.
  induction xs as [|x xs IH]; intros seen; cbn [app seen_after]; [reflexivity|].
  destruct (decide (item_key x ∈ seen)); apply IH.
Qed.

Lemma dedupe_from_app (xs ys : list NewsItem) :
  ∀ seen, dedupe_from seen (xs ++ ys) =
          dedupe_from seen xs ++ dedupe_from (seen_after seen xs) ys.
Proof.
  induction xs as [|x xs IH]; intros seen; cbn [app seen_after dedupe_from];
    [reflexivity|].
  destruct (decide (item_key x ∈ seen)); [apply IH|].
  rewrite IH. reflexivity.
Qed.

Lemma fetch_news_sources (parse : string → list entry)
    (sources : list string) :
  ∀ (items : list NewsItem) (seen : gset dedupe_key_t),
    foldl (λ st url, foldl fetch_news_entry st (parse url)) (items, seen)
      sources =
      (items ++ dedupe_from seen (surviving_items parse sources),
       seen_after seen (surviving_items parse sources)).
Proof.
  unfold surviving_items.
  induction sources as [|url sources IH]; intros items seen;
    cbn [foldl map concat].
  - cbn. rewrite app_nil_r. reflexivity.
  - rewrite fetch_news_entries, IH, omap_app, dedupe_from_app, seen_after_app,
      <- app_assoc.
    reflexivity.
Qed.

Lemma dedupe_from_seen (k : dedupe_key_t) (candidates : list NewsItem) :
  ∀ seen, k ∈ seen →
    filter (λ x, item_key x = k) (dedupe_from seen candidates) = [].
Proof.
  induction candidates as [|x rest IH]; intros seen Hk; cbn [dedupe_from];
    [reflexivity|].
  destruct (decide (item_key x ∈ seen)) as [Hin|Hout]; [by apply IH|].
  rewrite filter_cons_False by (intros <-; contradiction).
  apply IH, elem_of_union_r, Hk.
Qed.

Lemma dedupe_from_first (item : NewsItem) (pre post : list NewsItem) :
  ∀ seen, item_key item ∉ seen →
    (∀ x, x ∈ pre → item_key x ≠ item_key item) →
    filter (λ x, item_key x = item_key item)
      (dedupe_from seen (pre ++ item :: post)) = [item].
Proof.
  induction pre as [|x pre IH]; intros seen Hfresh Hpre; cbn [app dedupe_from].
  - rewrite decide_False by exact Hfresh.
    rewrite filter_cons_True by reflexivity.
    rewrite dedupe_from_seen
      by (apply elem_of_union_l, elem_of_singleton; reflexivity).
    reflexivity.
  - assert (Hx : item_key x ≠ item_key item) by (apply Hpre; left).
    assert (Hpre' : ∀ y, y ∈ pre → item_key y ≠ item_key item)
      by (intros y Hy; apply Hpre; by right).
    destruct (decide (item_key x ∈ seen)); [by apply IH|].
    rewrite filter_cons_False by exact Hx.
    apply IH; [|exact Hpre'].
    intros [Heq%elem_of_singleton|Hin]%elem_of_union;
      [by apply Hx|by apply Hfresh].
Qed.

Lemma insert_sorted_Permutation {A} (precedes : A → A → bool) (x : A)
    (l : list A) :
  insert_sorted precedes x l ≡ₚ x :: l.
Proof.
  induction l as [|y l IH]; cbn [insert_sorted]; [reflexivity|].
  destruct (precedes x y); [reflexivity|].
  rewrite IH. apply Permutation_swap.
Qed.

Lemma stable_sort_Permutation {A} (precedes : A → A → bool) (l : list A) :
  stable_sort precedes l ≡ₚ l.
Proof.
  unfold stable_sort. induction l as [|x l IH]; cbn [foldr]; [reflexivity|].
  rewrite insert_sorted_Permutation, IH. reflexivity.
Qed.

(** C8: among the surviving entries of all sources, taken in source and
    entry order, the first one with a given (lowercased title, link) key is
    the one item of the result with that key: entries that repeat the key
    later, however many, leave no item. *)
Theorem fetch_news_first_occurrence_wins (parse : string → list entry)
    (sources : list string) (item : NewsItem) (pre post : list NewsItem) :
  surviving_items parse sources = pre ++ item :: post →
  (∀ x, x ∈ pre → item_key x ≠ item_key item) →
  filter (λ x, item_key x = item_key item) (fetch_news parse sources) = [item].
Proof.
  intros Hsurv Hpre. unfold fetch_news.
  rewrite fetch_news_sources, Hsurv. cbn [app].
  apply Permutation_singleton_r.
  rewrite stable_sort_Permutation.
  rewrite dedupe_from_first;
    [reflexivity|apply not_elem_of_empty|exact Hpre].
Qed.

(** Of the three entries titled "bitcoin rally" with the same link, the
    first one, from the first feed, is the one item kept. *)
Lemma fetch_news_first_occurrence_wins_witness :
  List.length
    (filter (λ x, item_key x = item_key demo_first)
       (surviving_items demo_parse ["a"; "b"]%string)) = 3%nat
  ∧ filter (λ x, item_key x = item_key demo_first)
      (fetch_news demo_parse ["a"; "b"]%string) = [demo_first].
Proof.
  split; [vm_compute; reflexivity|].
  eapply (fetch_news_first_occurrence_wins demo_parse _ demo_first []).
  - vm_compute. reflexivity.
  - intros x Hx. inversion Hx.
Defined.

(** ** The recency filter *)

Lemma filter_nil_iff {A} (P : A → Prop) `{!∀ x, Decision (P x)} (l : list A) :
  filter P l = [] ↔ ∀ x, x ∈ l → ¬ P x.
Proof.
  rewrite <- Forall_forall. split.
  - intros Hnil. induction l as [|a l IH]; [constructor|].
    rewrite filter_cons in Hnil. destruct (decide (P a)); [discriminate|].
    constructor; auto.
  - intros Hall. induction Hall as [|a l Ha _ IH]; [reflexivity|].
    rewrite filter_cons. destruct (decide (P a)); [contradiction|exact IH].
Qed.

Lemma filter_recent_today items now today_only :
  filter (on_reference_day now) items ≠ [] →
  filter_recent items now today_only =
    (filter (on_reference_day now) items, "today"%string).
Proof.
  intros Hsome. unfold filter_recent.
  change (filter (λ item, date (published item) = date now) items)
    with (filter (on_reference_day now) items).
  destruct (filter (on_reference_day now) items); [contradiction|reflexivity].
Qed.

Lemma filter_recent_fallback items now today_only :
  filter (on_reference_day now) items = [] →
  filter_recent items now today_only =
    if today_only then ([], "none"%string)
    else (filter (not_older_than_24h now) items, "last_24h"%string).
Proof.
  intros Hnil. unfold filter_recent.
  change (filter (λ item, date (published item) = date now) items)
    with (filter (on_reference_day now) items).
  rewrite Hnil. reflexivity.
Qed.

(** C2: the three tiers of [filter_recent], in their order of precedence.
    If some item falls on the reference day the result is exactly the items
    of that day, labelled "today", whatever the last 24 hours hold;
    otherwise, with [today_only], it is empty and labelled "none";
    otherwise it is exactly the items published at or after the reference
    time minus 24 hours, labelled "last_24h". *)
Theorem filter_recent_three_tiers (items : list NewsItem) (now : datetime)
    (today_only : bool) :
  ((∃ item, item ∈ items ∧ date (published item) = date now) →
     filter_recent items now today_only =
       (filter (on_reference_day now) items, "today"%string))
  ∧ ((∀ item, item ∈ items → date (published item) ≠ date now) →
       today_only = true →
       filter_recent items now today_only = ([], "none"%string))
  ∧ ((∀ item, item ∈ items → date (published item) ≠ date now) →
       today_only = false →
       filter_recent items now today_only =
         (filter (not_older_than_24h now) items, "last_24h"%string)).
Proof.
  repeat split.
  - intros (item & Hin & Hday). apply filter_recent_today.
    intros Hnil. rewrite filter_nil_iff in Hnil. by apply (Hnil item).
  - intros Hnone ->. rewrite filter_recent_fallback; [reflexivity|].
    apply filter_nil_iff. exact Hnone.
  - intros Hnone ->. rewrite filter_recent_fallback; [reflexivity|].
    apply filter_nil_iff. exact Hnone.
Qed.

(** Three headlines of the last 24 hours, one of them of the reference day
    (day 19675 starts at second 1699920000): the one of today wins. *)
Example filter_recent_today_wins :
  filter_recent
    [headline 1699920060 "BTC up"; headline 1699919000 "BTC drop";
     headline 1699900000 "BTC flat"]
    (fromtimestamp 1699923600) false
  = ([headline 1699920060 "BTC up"], "today"%string).
Proof. vm_compute. reflexivity. Qed.

(** Without a headline of the reference day: nothing when only today is
    wanted, else the headlines of the last 24 hours. *)
Example filter_recent_none_then_last_24h :
  let items := [headline 1699919000 "BTC drop"; headline 1699300000 "BTC flat"] in
  filter_recent items (fromtimestamp 1699923600) true = ([], "none"%string)
  ∧ filter_recent items (fromtimestamp 1699923600) false
    = ([headline 1699919000 "BTC drop"], "last_24h"%string).
Proof. split; vm_compute; reflexivity. Qed.

(** C10: in the last-24h fallback the window is bounded from below only.
    When no item falls on the reference day and [today_only] is off, an item
    is selected exactly when it was published at or after the reference time
    minus 24 hours; so every item published after the reference time (on
    another day, necessarily) is selected too. *)
Theorem filter_recent_window_unbounded_above (items : list NewsItem)
    (now : datetime) :
  (∀ item, item ∈ items → date (published item) ≠ date now) →
  (filter_recent items now false).2 = "last_24h"%string
  ∧ (∀ item, item ∈ items →
       (item ∈ (filter_recent items now false).1
        ↔ now - 24 * 3600 * 1000000 ≤ published item))
  ∧ (∀ item, item ∈ items → now < published item →
       item ∈ (filter_recent items now false).1).
Proof.
  intros Hnone.
  rewrite filter_recent_fallback by (apply filter_nil_iff; exact Hnone).
  cbn [fst snd]. split; [reflexivity|]. split.
  - intros item Hin. rewrite list_elem_of_filter.
    unfold not_older_than_24h. tauto.
  - intros item Hin Hfuture. apply list_elem_of_filter.
    unfold not_older_than_24h. split; [lia|exact Hin].
Qed.

(** A headline dated two days after the reference time is kept by the
    fallback, next to one of the last hours; the week-old one is not. *)
Lemma filter_recent_window_unbounded_above_witness :
  let items :=
    [headline 1700096400 "BTC up"; headline 1699919000 "BTC drop";
     headline 1699300000 "BTC flat"] in
  let now := fromtimestamp 1699923600 in
  (∀ item, item ∈ items → date (published item) ≠ date now)
  ∧ headline 1700096400 "BTC up" ∈ (filter_recent items now false).1.
Proof.
  intros items now.
  assert (Hnone : ∀ item, item ∈ items → date (published item) ≠ date now).
  { apply Forall_forall. repeat constructor; intros H; vm_compute in H;
      discriminate H. }
  split; [exact Hnone|].
  refine (proj2 (proj2 (filter_recent_window_unbounded_above items now Hnone))
            _ _ _).
  - apply list_elem_of_here.
  - vm_compute. reflexivity.
Defined.

(** ** The retry loop *)

Lemma py_range_empty lo hi : hi ≤ lo → py_range lo hi = [].
Proof.
  intros H. unfold py_range. replace (Z.to_nat (hi - lo)) with 0%nat by lia.
  reflexivity.
Qed.

Lemma py_range_cons lo hi :
  lo < hi → py_range lo hi = lo :: py_range (lo + 1) hi.
Proof.
  intros H. unfold py_range.
  replace (Z.to_nat (hi - lo)) with (S (Z.to_nat (hi - (lo + 1)))) by lia.
  cbn [seq map]. f_equal; [lia|].
  rewrite <- seq_shift, map_map. apply map_ext. intros i. lia.
Qed.

Section FetchJson.
Variable net : nat → outcome.
Variables (timeout retries : Z) (url : string).

Lemma fetch_json_loop_exhausted (n : nat) :
  ∀ (a : Z) (last_exc : option exn) (w : world) (causes : nat → string),
    Z.of_nat n = retries + 1 - a →
    (∀ k, (k < n)%nat →
          net (requests_sent w + k)%nat
          = Raises (RequestException (causes k))) →
    fetch_json_loop net timeout retries url (py_range a (retries + 1))
      last_exc w =
      (inl (RuntimeError ("Failed to fetch " ++ url)
              (match n with
               | O => last_exc
               | S m => Some (RequestException (causes m))
               end)),
       mkWorld (requests_sent w + n)
         (events w
            ++ flat_map (attempt_then_wait url timeout) (py_range a retries)
            ++ match n with O => [] | S _ => [Request url timeout] end)).
Proof.
  induction n as [|m IH]; intros a last_exc w causes Hn Hnet.
  - rewrite !py_range_empty by lia. destruct w as [sent evs]. cbn.
    rewrite Nat.add_0_r, app_nil_r. reflexivity.
  - rewrite (py_range_cons a (retries + 1)) by lia.
    cbn [fetch_json_loop].
    pose proof (Hnet 0%nat ltac:(lia)) as H0. rewrite Nat.add_0_r in H0.
    rewrite H0.
    match goal with
    | |- fetch_json_loop _ _ _ _ _ _ ?w2 = _ => set (w' := w2)
    end.
    assert (Hsent : requests_sent w' = S (requests_sent w))
      by (subst w'; destruct (a <? retries); reflexivity).
    rewrite (IH (a + 1) _ w' (λ k, causes (S k))); [|lia|].
    + f_equal.
      * destruct m; reflexivity.
      * rewrite Hsent. f_equal; [lia|].
        subst w'. destruct (Z.ltb_spec a retries) as [Hlt|Hge].
        -- rewrite (py_range_cons a retries) by lia.
           destruct m; [lia|]. cbn. rewrite <- !app_assoc. reflexivity.
        -- rewrite !py_range_empty by lia.
           destruct m; [|lia]. cbn. rewrite app_nil_r. reflexivity.
    + intros k Hk. rewrite Hsent.
      replace (S (requests_sent w) + k)%nat
        with (requests_sent w + S k)%nat by lia.
      apply Hnet. lia.
Qed.

(** C3: with [retries >= 1] and every attempt failing with a transport
    error, the loop sends exactly [retries] requests; after the attempt
    number i, for i below [retries], it waits 1.5 * i, and after the last
    one it does not wait; then it raises the retrieval error whose cause
    is the exception of the last attempt.  [fetch_price_snapshot] fails
    in the same way. *)
Theorem fetch_json_retries_exhausted (w : world) (causes : nat → string) :
  1 ≤ retries →
  (∀ k, (k < Z.to_nat retries)%nat →
        net (requests_sent w + k)%nat
        = Raises (RequestException (causes k))) →
  let failure :=
    RuntimeError ("Failed to fetch " ++ url)
      (Some (RequestException (causes (Z.to_nat retries - 1)%nat))) in
  let w' :=
    mkWorld (requests_sent w + Z.to_nat retries)
      (events w
         ++ flat_map (attempt_then_wait url timeout) (py_range 1 retries)
         ++ [Request url timeout]) in
  fetch_json net timeout retries url w = (inl failure, w')
  ∧ (∀ symbol, url = chart_url_of symbol →
       fetch_price_snapshot net symbol timeout retries w = (inl failure, w')).
Proof.
  intros Hretries Hnet failure w'.
  assert (Hjson : fetch_json net timeout retries url w = (inl failure, w')).
  { unfold fetch_json.
    rewrite (fetch_json_loop_exhausted (Z.to_nat retries) 1 None w causes)
      by (lia || exact Hnet).
    subst failure w'. destruct (Z.to_nat retries) as [|m] eqn:E; [lia|].
    replace (S m - 1)%nat with m by lia. reflexivity. }
  split; [exact Hjson|].
  intros symbol Hurl. unfold fetch_price_snapshot.
  rewrite <- Hurl, Hjson. reflexivity.
Qed.

(** C9: with [retries <= 0] the loop body never runs: no request is sent,
    nothing is waited for, and the retrieval error is raised at once,
    without a cause. *)
Theorem fetch_json_no_attempt (w : world) :
  retries ≤ 0 →
  fetch_json net timeout retries url w =
    (inl (RuntimeError ("Failed to fetch " ++ url) None), w)
  ∧ (∀ symbol, url = chart_url_of symbol →
       fetch_price_snapshot net symbol timeout retries w =
         (inl (RuntimeError ("Failed to fetch " ++ url) None), w)).
Proof.
  intros Hretries.
  assert (Hjson : fetch_json net timeout retries url w =
                  (inl (RuntimeError ("Failed to fetch " ++ url) None), w)).
  { unfold fetch_json. rewrite py_range_empty by lia. reflexivity. }
  split; [exact Hjson|].
  intros symbol Hurl. unfold fetch_price_snapshot.
  rewrite <- Hurl, Hjson. reflexivity.
Qed.

End FetchJson.

(** Three timeouts in a row with [retries = 3]: three requests, waits of
    1.5 and 3.0 between them, none after the third, and the error. *)
Lemma fetch_json_retries_exhausted_witness :
  let net := λ _ : nat, Raises (RequestException "timed out") in
  1 ≤ 3
  ∧ fetch_json net 25 3 "u" world0 =
      (inl (RuntimeError "Failed to fetch u"
              (Some (RequestException "timed out"))),
       mkWorld 3
         [Request "u" 25; Sleep ((3 # 2) * 1); Request "u" 25;
          Sleep ((3 # 2) * 2); Request "u" 25]).
Proof.
  intros net. split; [lia|].
  exact (proj1 (fetch_json_retries_exhausted net 25 3 "u" world0
                  (λ _, "timed out"%string) ltac:(lia) (λ k _, eq_refl))).
Defined.

Lemma fetch_json_no_attempt_witness :
  let net := λ _ : nat, Raises (RequestException "timed out") in
  0 ≤ 0
  ∧ fetch_json net 25 0 "u" world0 =
      (inl (RuntimeError "Failed to fetch u" None), world0).
Proof.
  intros net. split; [lia|].
  exact (proj1 (fetch_json_no_attempt net 25 0 "u" world0 ltac:(lia))).
Defined.

(** ** Combining and projecting *)

(** Scores +0.5 and -0.1 with a price change of 3 percent: 0.32. *)
Example combine_signal_end_to_end :
  (combine_signal [scored_item (1 # 2); scored_item (-1 # 10)]
     (mkFuturesSnapshot 103 2000000%Z 100 1000000%Z 3 (3 # 100))
   == (32 # 100))%Q.
Proof. vm_compute. reflexivity. Qed.

(** C6: [combine_signal] is 0.7 times the news score plus 0.3 times the
    price change over 5 clamped to [-1, 1], the news score being the mean
    of the item scores, or 0 for no item; so for the empty list it is 0.3
    times the clamped price score. *)
Theorem combine_signal_spec (news_items : list NewsItem)
    (futures : FuturesSnapshot) :
  (combine_signal news_items futures ==
     (7 # 10) * news_score news_items
     + (3 # 10) * clamp (pct_change_since_close futures / 5) (-1) 1)%Q
  ∧ (combine_signal [] futures ==
       (3 # 10) * clamp (pct_change_since_close futures / 5) (-1) 1)%Q.
Proof.
  assert (Hclamp : (py_max (-1) (py_min 1 (pct_change_since_close futures / 5))
                    == clamp (pct_change_since_close futures / 5) (-1) 1)%Q)
    by (apply py_clamp; lra).
  split.
  - unfold combine_signal. rewrite Hclamp.
    destruct news_items as [|item items]; [reflexivity|].
    unfold news_score, mean. rewrite py_sum_foldr, length_map. reflexivity.
  - unfold combine_signal. rewrite Hclamp. ring.
Qed.

(** *** The round trip of the projection *)

Lemma Qmult_le_nonneg_l (u x y : Q) :
  (0 <= u)%Q → (x <= y)%Q → (u * x <= u * y)%Q.
Proof.
  intros Hu Hxy. rewrite (Qmult_comm u x), (Qmult_comm u y).
  by apply Qmult_le_compat_r.
Qed.

Lemma Qabs_sum_bound (z x d bx bd : Q) :
  (z == x + d)%Q → (Qabs x <= bx)%Q → (Qabs d <= bd)%Q →
  (Qabs z <= bx + bd)%Q.
Proof.
  intros Hz Hx Hd. rewrite Hz.
  eapply Qle_trans; [apply Qabs_triangle|]. by apply Qplus_le_compat.
Qed.

Lemma Qabs_quotient_bound (d y c : Q) :
  ¬ (y == 0)%Q → (Qabs d <= c * Qabs y)%Q → (Qabs (d / y) <= c)%Q.
Proof.
  intros Hy Hd.
  assert (Hpos : (0 < Qabs y)%Q).
  { destruct (Qlt_le_dec 0 y) as [Hgt|Hle].
    - rewrite Qabs_pos by lra. exact Hgt.
    - destruct (Qlt_le_dec y 0) as [Hlt|Hge].
      + rewrite Qabs_neg by lra. lra.
      + exfalso. apply Hy. by apply Qle_antisym. }
  unfold Qdiv. rewrite Qabs_Qmult, Qabs_Qinv.
  apply Qle_shift_div_r; [exact Hpos|exact Hd].
Qed.

Section Tolerance.

Variables (fl : Q → Q) (u : Q).
Hypothesis u_nonneg : (0 <= u)%Q.
Hypothesis fl_rounds : rounds_within u fl.

Lemma rounded_bound (x b : Q) :
  (Qabs x <= b)%Q → (Qabs (fl x) <= (1 + u) * b)%Q.
Proof.
  intros Hx.
  assert (Hfl : (Qabs (fl x - x) <= u * b)%Q).
  { eapply Qle_trans; [apply fl_rounds|]. by apply Qmult_le_nonneg_l. }
  eapply Qle_trans;
    [apply (Qabs_sum_bound (fl x) x (fl x - x) b (u * b));
     [ring|exact Hx|exact Hfl]|].
  lra.
Qed.

(** The four rounded operations between [a], the rounded move over 100,
    and the left side of the round trip: the sum [t], the product [p], the
    quotient [q] and the difference. *)
Lemma round_trip_chain (a y : Q) :
  ¬ (y == 0)%Q →
  (Qabs (fl (fl (fl (y * fl (1 + a)) / y) - 1) - a)
   <= round_trip_tolerance u a)%Q.
Proof.
  intros Hy. unfold round_trip_tolerance.
  set (A := Qabs (1 + a)).
  set (t := fl (1 + a)). set (p := fl (y * t)). set (r := (p / y)%Q).
  set (q := fl r). set (L := fl (q - 1)).
  assert (HA : (0 <= A)%Q) by apply Qabs_nonneg.
  assert (Hd1 : (Qabs (t - (1 + a)) <= u * A)%Q) by apply fl_rounds.
  assert (Ht : (Qabs t <= (1 + u) * A)%Q)
    by (apply rounded_bound; apply Qle_refl).
  assert (Hd2 : (Qabs (r - t) <= u * ((1 + u) * A))%Q).
  { assert (E : (r - t == (p - y * t) / y)%Q) by (unfold r; field; exact Hy).
    rewrite E.
    apply Qabs_quotient_bound; [exact Hy|].
    eapply Qle_trans; [apply fl_rounds|].
    rewrite Qabs_Qmult.
    assert (E2 : (u * (Qabs y * Qabs t) == u * Qabs t * Qabs y)%Q) by ring.
    rewrite E2.
    apply Qmult_le_compat_r; [|apply Qabs_nonneg].
    by apply Qmult_le_nonneg_l. }
  assert (Hr : (Qabs r <= (1 + u) * ((1 + u) * A))%Q).
  { eapply Qle_trans;
      [apply (Qabs_sum_bound r t (r - t) _ _ ltac:(ring) Ht Hd2)|]. lra. }
  assert (Hd3 : (Qabs (q - r) <= u * ((1 + u) * ((1 + u) * A)))%Q).
  { eapply Qle_trans; [apply fl_rounds|]. by apply Qmult_le_nonneg_l. }
  set (B := (((1 + u) * (1 + u) * (1 + u) - 1) * A)%Q).
  assert (Hq : (Qabs (q - 1 - a) <= B)%Q).
  { assert (Hmid : (Qabs ((r - t) + (t - (1 + a)))
                    <= u * ((1 + u) * A) + u * A)%Q)
      by (apply (Qabs_sum_bound _ (r - t) (t - (1 + a)));
          [reflexivity|exact Hd2|exact Hd1]).
    eapply Qle_trans;
      [apply (Qabs_sum_bound (q - 1 - a) (q - r)
                ((r - t) + (t - (1 + a))) _ _ ltac:(ring) Hd3 Hmid)|].
    unfold B. ring_simplify. apply Qle_refl. }
  assert (Hq1 : (Qabs (q - 1) <= Qabs a + B)%Q).
  { apply (Qabs_sum_bound (q - 1) a (q - 1 - a));
      [ring|apply Qle_refl|exact Hq]. }
  assert (Hd4 : (Qabs (L - (q - 1)) <= u * (Qabs a + B))%Q).
  { eapply Qle_trans; [apply fl_rounds|]. by apply Qmult_le_nonneg_l. }
  eapply Qle_trans;
    [apply (Qabs_sum_bound (L - a) (L - (q - 1)) (q - 1 - a) _ _
              ltac:(ring) Hd4 Hq)|].
  unfold B. ring_simplify. apply Qle_refl.
Qed.

End Tolerance.

(** With the unit roundoff of binary64 and a right side of at most 1 in
    absolute value, the tolerance is below 2^-50. *)
Lemma round_trip_tolerance_small (u a : Q) :
  (0 <= u <= UNIT_ROUNDOFF)%Q → (Qabs a <= 1)%Q →
  (round_trip_tolerance u a <= 1 # (2 ^ 50))%Q.
Proof.
  intros [Hu0 Hu1] Ha. unfold round_trip_tolerance.
  assert (HA : (Qabs (1 + a) <= 2)%Q).
  { apply (Qabs_sum_bound (1 + a) 1 a 1 1); [ring| |exact Ha].
    rewrite Qabs_pos; lra. }
  pose proof (Qabs_nonneg a) as Ha0.
  pose proof (Qabs_nonneg (1 + a)) as HA0.
  set (c := ((1 + u) * ((1 + u) * (1 + u) * (1 + u) - 1))%Q).
  assert (Hu16 : (u <= 1 # 16)%Q)
    by (eapply Qle_trans; [exact Hu1|]; vm_compute; discriminate).
  pose proof (Qmult_le_0_compat u u Hu0 Hu0) as Hv0.
  pose proof (Qmult_le_compat_r u (1 # 16) u Hu16 Hu0) as Hv.
  pose proof (Qmult_le_0_compat u (u * u) Hu0 Hv0) as Hw0.
  pose proof (Qmult_le_compat_r u (1 # 16) (u * u) Hu16 Hv0) as Hw.
  pose proof (Qmult_le_0_compat u (u * (u * u)) Hu0 Hw0) as Hz0.
  pose proof (Qmult_le_compat_r u (1 # 16) (u * (u * u)) Hu16 Hw0) as Hz.
  assert (Ec : (c == 3 * u + 6 * (u * u) + 4 * (u * (u * u))
                     + u * (u * (u * u)))%Q) by (unfold c; ring).
  assert (Hc0 : (0 <= c)%Q) by (rewrite Ec; lra).
  assert (Hc : (c <= (7 # 2) * u)%Q) by (rewrite Ec; lra).
  assert (H1 : (u * Qabs a <= u * 1)%Q) by (by apply Qmult_le_nonneg_l).
  assert (H2 : (c * Qabs (1 + a) <= c * 2)%Q) by (by apply Qmult_le_nonneg_l).
  clearbody c.
  apply Qle_trans with (u * 1 + c * 2)%Q; [by apply Qplus_le_compat|].
  apply Qle_trans with (8 * u)%Q; [lra|].
  apply Qle_trans with (8 * UNIT_ROUNDOFF)%Q;
    [apply Qmult_le_nonneg_l; [lra|exact Hu1]|].
  vm_compute. discriminate.
Qed.

(** C7: the round trip of the projection holds up to rounding, not as an
    equality of floats.  For a prior close other than 0: in exact
    arithmetic expected_price / yesterday_close - 1 is
    expected_move_pct / 100, where expected_move_pct is the clamped score
    times the average absolute return times 100 and expected_price is the
    prior close times (1 + expected_move_pct / 100); and when every float
    operation rounds its exact result with a relative error of at most
    [u], the two sides, computed in floats themselves, differ by no more
    than [round_trip_tolerance], which is below 2^-50 for the unit roundoff
    of binary64 and a right side of at most 1 in absolute value. *)
Theorem projection_round_trip (fl : Q → Q) (u : Q) (combined_score : Q)
    (futures : FuturesSnapshot) :
  (0 <= u)%Q →
  rounds_within u fl →
  ¬ (yesterday_close futures == 0)%Q →
  ((expected_move_pct combined_score futures ==
      clamp combined_score (-1) 1 * avg_abs_daily_return futures * 100)%Q
   ∧ (expected_price combined_score futures ==
        yesterday_close futures
        * (1 + expected_move_pct combined_score futures / 100))%Q
   ∧ (expected_price combined_score futures / yesterday_close futures - 1 ==
        expected_move_pct combined_score futures / 100)%Q)
  ∧ (Qabs (round_trip_left fl combined_score futures
           - round_trip_right fl combined_score futures)
     <= round_trip_tolerance u (round_trip_right fl combined_score futures))%Q
  ∧ ((u <= UNIT_ROUNDOFF)%Q →
     (Qabs (round_trip_right fl combined_score futures) <= 1)%Q →
     (Qabs (round_trip_left fl combined_score futures
            - round_trip_right fl combined_score futures)
      <= 1 # (2 ^ 50))%Q).
Proof.
  intros Hu Hfl Hyc.
  assert (Hbound :
    (Qabs (round_trip_left fl combined_score futures
           - round_trip_right fl combined_score futures)
     <= round_trip_tolerance u
          (round_trip_right fl combined_score futures))%Q).
  { unfold round_trip_left, round_trip_right, expected_price_rnd.
    cbv zeta. by apply round_trip_chain. }
  split; [split; [|split]|split].
  - unfold expected_move_pct. rewrite py_clamp by lra. reflexivity.
  - reflexivity.
  - unfold expected_price. field. exact Hyc.
  - exact Hbound.
  - intros Hu1 Ha. eapply Qle_trans; [exact Hbound|].
    by apply round_trip_tolerance_small.
Qed.

Lemma round_away_rounds : rounds_within UNIT_ROUNDOFF round_away.
Proof.
  intros x. unfold round_away.
  assert (E : (x * (1 + UNIT_ROUNDOFF) - x == UNIT_ROUNDOFF * x)%Q) by ring.
  rewrite E, Qabs_Qmult, (Qabs_pos UNIT_ROUNDOFF); [apply Qle_refl|].
  vm_compute. discriminate.
Qed.

(** With every result moved away from 0 by the unit roundoff, a score of
    0.5 and the snapshot of the examples: the two sides are not equal, and
    they are within 2^-50 of each other. *)
Lemma projection_round_trip_witness :
  (0 <= UNIT_ROUNDOFF)%Q
  ∧ rounds_within UNIT_ROUNDOFF round_away
  ∧ ¬ (yesterday_close demo_snapshot == 0)%Q
  ∧ ¬ (round_trip_left round_away (1 # 2) demo_snapshot
       == round_trip_right round_away (1 # 2) demo_snapshot)%Q
  ∧ (Qabs (round_trip_left round_away (1 # 2) demo_snapshot
           - round_trip_right round_away (1 # 2) demo_snapshot)
     <= 1 # (2 ^ 50))%Q
  ∧ (expected_price (1 # 2) demo_snapshot / yesterday_close demo_snapshot - 1
     == expected_move_pct (1 # 2) demo_snapshot / 100)%Q.
Proof.
  assert (Hu : (0 <= UNIT_ROUNDOFF)%Q) by (vm_compute; discriminate).
  assert (Hyc : ¬ (yesterday_close demo_snapshot == 0)%Q)
    by (vm_compute; discriminate).
  split; [exact Hu|]. split; [exact round_away_rounds|].
  split; [exact Hyc|]. split; [vm_compute; discriminate|].
  destruct (projection_round_trip round_away UNIT_ROUNDOFF (1 # 2)
              demo_snapshot Hu round_away_rounds Hyc)
    as ((_ & _ & Hexact) & _ & Hsmall).
  split; [|exact Hexact].
  apply Hsmall; [apply Qle_refl|]. vm_compute. discriminate.
Defined.

(** The round trip as an equality of floats fails on binary64: with a
    combined score of 0.1, an average absolute return of 0.1 and a prior
    close of 3.0, the left side is 0.010000000000000009 and the right side
    0.010000000000000002, less than 2^-50 apart. *)
Lemma projection_round_trip_not_exact_on_binary64 :
  let move_pct := expected_move_pct_b64 B64_TENTH B64_TENTH in
  let expected_price := expected_price_b64 3 move_pct in
  PrimFloat.eqb 3 0 = false
  ∧ PrimFloat.eqb (expected_price / 3 - 1) (move_pct / 100) = false
  ∧ PrimFloat.ltb (move_pct / 100) (expected_price / 3 - 1) = true
  ∧ PrimFloat.ltb (expected_price / 3 - 1 - move_pct / 100) 0x1p-50 = true.
Proof. vm_compute. repeat split. Qed.

(** ** The price snapshot *)

Lemma returns_loop_suffix (rest : list (Z * Q)) :
  ∀ (pre : list (Z * Q)) (p : Z * Q) (returns : list Q),
    foldl (returns_step (pre ++ p :: rest)) returns
      (py_range (Z.of_nat (List.length pre) + 1)
                (Z.of_nat (List.length (pre ++ p :: rest))))
    = returns ++ code_returns (map snd (p :: rest)).
Proof.
  induction rest as [|c rest IH]; intros pre p returns.
  - rewrite py_range_empty by (rewrite length_app; cbn; lia).
    cbn. rewrite app_nil_r. reflexivity.
  - rewrite py_range_cons by (rewrite length_app; cbn; lia).
    cbn [foldl].
    replace (returns_step (pre ++ p :: c :: rest) returns
               (Z.of_nat (List.length pre) + 1))
      with (returns ++ (if Qlt_bool 0 p.2
                        then [Qabs ((c.2 - p.2) / p.2)] else [])).
    + replace (pre ++ p :: c :: rest) with ((pre ++ [p]) ++ c :: rest)
        by (rewrite <- app_assoc; reflexivity).
      replace (Z.of_nat (List.length pre) + 1 + 1)
        with (Z.of_nat (List.length (pre ++ [p])) + 1)
        by (rewrite length_app; cbn; lia).
      rewrite IH. cbn [map code_returns]. rewrite <- app_assoc. reflexivity.
    + unfold returns_step.
      replace (Z.to_nat (Z.of_nat (List.length pre) + 1 - 1))
        with (List.length pre + 0)%nat by lia.
      replace (Z.to_nat (Z.of_nat (List.length pre) + 1))
        with (List.length pre + 1)%nat by lia.
      rewrite !lookup_app_r by lia.
      replace (List.length pre + 0 - List.length pre)%nat with 0%nat by lia.
      replace (List.length pre + 1 - List.length pre)%nat with 1%nat by lia.
      cbn. destruct p as [tp qp], c as [tc qc]. cbn.
      destruct (Qlt_bool 0 qp); [reflexivity|]. rewrite app_nil_r. reflexivity.
Qed.

Lemma abs_returns_code_returns (cleaned : list (Z * Q)) :
  abs_returns cleaned = code_returns (map snd cleaned).
Proof.
  unfold abs_returns. destruct cleaned as [|p rest]; [reflexivity|].
  apply (returns_loop_suffix rest [] p []).
Qed.








Lemma sorted_series_last_two (cleaned0 : list (Z * Q)) :
  (2 ≤ List.length cleaned0)%nat →
  ∃ pre ty y tl l, sorted_series cleaned0 = pre ++ [(ty, y); (tl, l)].
Proof.
  intros Hlen.
  assert (Hlen' : (2 ≤ List.length (rev (sorted_series cleaned0)))%nat).
  { rewrite length_rev. unfold sorted_series.
    rewrite (Permutation_length (stable_sort_Permutation _ cleaned0)).
    exact Hlen. }
  destruct (rev (sorted_series cleaned0)) as [|[tl l] [|[ty y] r]] eqn:Erev;
    cbn in Hlen'; try lia.
  exists (rev r), ty, y, tl, l.
  rewrite <- (rev_involutive (sorted_series cleaned0)), Erev. cbn.
  rewrite <- app_assoc. reflexivity.
Qed.

(** What the code does with the prior close [y] of any series: it divides by
    it, whatever its sign. *)
Lemma snapshot_of_cleaned_prior_close (cleaned0 pre : list (Z * Q))
    (ty tl : Z) (y l : Q) :
  sorted_series cleaned0 = pre ++ [(ty, y); (tl, l)] →
  snapshot_of_cleaned cleaned0 =
    if Qeq_bool y 0 then inl ZeroDivisionError
    else inr (mkFuturesSnapshot l (fromtimestamp tl) y (fromtimestamp ty)
                ((l - y) / y * 100)%Q
                match abs_returns (sorted_series cleaned0) with
                | [] => 0%Q
                | _ => (py_sum (abs_returns (sorted_series cleaned0))
                        / inject_Z (Z.of_nat (List.length
                            (abs_returns (sorted_series cleaned0)))))%Q
                end).
Proof.
  intros Hsorted. unfold snapshot_of_cleaned, index_from_end. cbv zeta.
  generalize (abs_returns (sorted_series cleaned0)). intros returns.
  rewrite Hsorted, rev_app_distr. cbn.
  unfold float_div. destruct (Qeq_bool y 0); reflexivity.
Qed.







(** The week of closes ending in 107 then 104: a change of -300/107
    percent, about -2.80, and the mean of the six absolute returns. *)
Example fetch_price_snapshot_week :
  ∃ s w,
    fetch_price_snapshot (always demo_week) YAHOO_SYMBOL 25 3 world0
    = (inr s, w)
    ∧ requests_sent w = 1%nat
    ∧ (last_price s == 104)%Q ∧ (yesterday_close s == 107)%Q
    ∧ (pct_change_since_close s == (-300 # 107))%Q
    ∧ (avg_abs_daily_return s ==
         ((2 # 100) + (1 # 102) + (4 # 101) + (2 # 105) + (4 # 103)
          + (3 # 107)) / 6)%Q.
Proof.
  eexists _, _. split; [vm_compute; reflexivity|].
  repeat split; vm_compute; reflexivity.
Qed.

(** C1 (the code does not do what the claim asks): the prior close is never
    tested before the division.  For every series, a negative prior close
    gives a snapshot built from it, and a prior close of 0 ends the call in
    ZeroDivisionError, not in the RuntimeError of a failed fetch.  So with
    the closes -50 then 100 a snapshot with a change of -300 percent is
    returned, and with the closes 0 then 100 ZeroDivisionError is raised. *)
Theorem fetch_price_snapshot_prior_close_unchecked :
  (∀ (cleaned0 pre : list (Z * Q)) (ty tl : Z) (y l : Q),
     sorted_series cleaned0 = pre ++ [(ty, y); (tl, l)] →
     ((y < 0)%Q →
        ∃ s, snapshot_of_cleaned cleaned0 = inr s
          ∧ yesterday_close s = y
          ∧ pct_change_since_close s = ((l - y) / y * 100)%Q)
     ∧ ((y == 0)%Q → snapshot_of_cleaned cleaned0 = inl ZeroDivisionError))
  ∧ (∃ s w,
       fetch_price_snapshot
         (always (chart_with_closes [1; 2] [Some (-50)%Q; Some 100%Q]))
         YAHOO_SYMBOL 25 3 world0 = (inr s, w)
       ∧ (yesterday_close s == -50)%Q
       ∧ (pct_change_since_close s == -300)%Q)
  ∧ (fetch_price_snapshot
       (always (chart_with_closes [1; 2] [Some 0%Q; Some 100%Q]))
       YAHOO_SYMBOL 25 3 world0).1 = inl ZeroDivisionError.
Proof.
  split; [|split].
  - intros cleaned0 pre ty tl y l Hsorted.
    rewrite (snapshot_of_cleaned_prior_close cleaned0 pre ty tl y l Hsorted).
    split.
    + intros Hneg.
      destruct (Qeq_bool y 0) eqn:Ey; [apply Qeq_bool_iff in Ey; lra|].
      eexists. repeat split.
    + intros Hzero. apply Qeq_bool_iff in Hzero. rewrite Hzero. reflexivity.
  - eexists _, _. split; [vm_compute; reflexivity|].
    split; vm_compute; reflexivity.
  - vm_compute. reflexivity.
Qed.

(** * Properties of the rest of the code *)

(** ** Cleaned text *)

Lemma no_double_space_cons (c : ascii) (l : list ascii) :
  (∀ pre post, l ≠ pre ++ " "%char :: " "%char :: post) →
  (c = " "%char → ∀ post, l ≠ " "%char :: post) →
  ∀ pre post, c :: l ≠ pre ++ " "%char :: " "%char :: post.
Proof.
  intros Hl Hc [|p pre] post Heq; cbn in Heq.
  - injection Heq as -> ->. by apply (Hc eq_refl post).
  - injection Heq as -> ->. by apply (Hl pre post).
Qed.

Lemma collapse_ws_form (cs : list ascii) :
  ∀ in_run,
    Forall (λ c, is_space c = true → c = " "%char) (collapse_ws cs in_run)
    ∧ (in_run = true → ∀ post, collapse_ws cs in_run ≠ " "%char :: post)
    ∧ (∀ pre post,
         collapse_ws cs in_run ≠ pre ++ " "%char :: " "%char :: post).
Proof.
  induction cs as [|c cs IH]; intros in_run; cbn [collapse_ws].
  - split; [constructor|]. split; [discriminate|].
    intros [|p pre] post; discriminate.
  - destruct (is_space c) eqn:Ec.
    + destruct in_run.
      * destruct (IH true) as (Hall & Hhead & Hdbl).
        split; [exact Hall|]. split; [intros _; by apply Hhead|exact Hdbl].
      * destruct (IH true) as (Hall & Hhead & Hdbl).
        split; [constructor; [reflexivity|exact Hall]|].
        split; [discriminate|].
        apply no_double_space_cons; [exact Hdbl|intros _; by apply Hhead].
    + destruct (IH false) as (Hall & _ & Hdbl).
      split; [constructor; [congruence|exact Hall]|].
      split; [intros _ post Heq; injection Heq as -> _; vm_compute in Ec;
              discriminate|].
      apply no_double_space_cons; [exact Hdbl|].
      intros ->. vm_compute in Ec. discriminate.
Qed.

Lemma lstrip_suffix (cs : list ascii) :
  ∃ skipped, cs = skipped ++ lstrip cs.
Proof.
  induction cs as [|c cs [skipped IH]]; cbn [lstrip]; [by exists []|].
  destruct (is_space c); [|by exists []].
  exists (c :: skipped). cbn. by rewrite <- IH.
Qed.

Lemma lstrip_head (cs post : list ascii) (c : ascii) :
  lstrip cs = c :: post → is_space c = false.
Proof.
  induction cs as [|d cs IH]; cbn [lstrip]; [discriminate|].
  destruct (is_space d) eqn:Ed; [exact IH|].
  intros Heq. injection Heq as <- _. exact Ed.
Qed.

Lemma lstrip_id (cs : list ascii) :
  (∀ c post, cs = c :: post → is_space c = false) → lstrip cs = cs.
Proof.
  destruct cs as [|c cs]; [reflexivity|]. intros Hhead. cbn [lstrip].
  by rewrite (Hhead c cs eq_refl).
Qed.

Lemma strip_form (cs : list ascii) :
  Forall (λ c, is_space c = true → c = " "%char) cs →
  (∀ pre post, cs ≠ pre ++ " "%char :: " "%char :: post) →
  clean_form (strip cs).
Proof.
  intros Hall Hdbl. unfold strip.
  destruct (lstrip_suffix cs) as [sk1 H1].
  destruct (lstrip_suffix (rev (lstrip cs))) as [sk2 H2].
  set (inner := lstrip (rev (lstrip cs))) in *.
  assert (Hcs : cs = sk1 ++ rev inner ++ rev sk2).
  { rewrite H1 at 1. f_equal.
    rewrite <- (rev_involutive (lstrip cs)), H2, rev_app_distr. reflexivity. }
  repeat split.
  - rewrite Hcs in Hall. apply Forall_app in Hall as [_ Hall].
    by apply Forall_app in Hall as [Hall _].
  - intros post Heq.
    assert (Hl : lstrip cs = " "%char :: post ++ rev sk2).
    { rewrite <- (rev_involutive (lstrip cs)), H2, rev_app_distr, Heq.
      reflexivity. }
    apply lstrip_head in Hl. vm_compute in Hl. discriminate.
  - intros pre Heq.
    assert (Hi : inner = " "%char :: rev pre).
    { rewrite <- (rev_involutive inner), Heq, rev_app_distr. reflexivity. }
    apply lstrip_head in Hi. vm_compute in Hi. discriminate.
  - intros pre post Heq. apply (Hdbl (sk1 ++ pre) (post ++ rev sk2)).
    rewrite Hcs, Heq, <- !app_assoc. reflexivity.
Qed.

(** X1: whatever the text, [_clean_text] returns a text whose only
    whitespace is the plain space, which neither starts nor ends it and
    never occurs twice in a row. *)
Theorem clean_text_form (text : string) :
  clean_form (String.list_ascii_of_string (_clean_text text)).
Proof.
  unfold _clean_text. rewrite String.list_ascii_of_string_of_list_ascii.
  destruct (collapse_ws_form (String.list_ascii_of_string text) false)
    as (Hall & _ & Hdbl).
  by apply strip_form.
Qed.

Lemma collapse_ws_id (cs : list ascii) :
  ∀ in_run,
    Forall (λ c, is_space c = true → c = " "%char) cs →
    (∀ pre post, cs ≠ pre ++ " "%char :: " "%char :: post) →
    (in_run = true → ∀ post, cs ≠ " "%char :: post) →
    collapse_ws cs in_run = cs.
Proof.
  induction cs as [|c cs IH]; intros in_run Hall Hdbl Hhead; [reflexivity|].
  apply Forall_cons in Hall as [Hc Hall].
  assert (Hdbl' : ∀ pre post, cs ≠ pre ++ " "%char :: " "%char :: post)
    by (intros pre post ->; by apply (Hdbl (c :: pre) post)).
  cbn [collapse_ws]. destruct (is_space c) eqn:Ec.
  - rewrite (Hc eq_refl) in *. destruct in_run.
    + by destruct (Hhead eq_refl cs).
    + f_equal. apply IH; [exact Hall|exact Hdbl'|].
      intros _ post ->. by apply (Hdbl [] post).
  - f_equal. apply IH; [exact Hall|exact Hdbl'|discriminate].
Qed.

Lemma strip_id (cs : list ascii) : clean_form cs → strip cs = cs.
Proof.
  intros (Hall & Hhead & Hlast & _). unfold strip.
  assert (H1 : lstrip cs = cs).
  { apply lstrip_id. intros c post ->.
    apply Forall_cons in Hall as [Hc _].
    destruct (is_space c) eqn:Ec; [|reflexivity].
    rewrite (Hc eq_refl) in Hhead. by destruct (Hhead post). }
  rewrite H1.
  assert (H2 : lstrip (rev cs) = rev cs).
  { apply lstrip_id. intros c post Hrev.
    assert (Hcs : cs = rev post ++ [c])
      by (rewrite <- (rev_involutive cs), Hrev; reflexivity).
    rewrite Hcs in Hall. apply Forall_app in Hall as [_ Hc].
    apply Forall_cons in Hc as [Hc _].
    destruct (is_space c) eqn:Ec; [|reflexivity].
    rewrite (Hc eq_refl) in Hcs. by destruct (Hlast (rev post)). }
  rewrite H2. apply rev_involutive.
Qed.

(** X2: cleaning is idempotent: a cleaned text is left as it is. *)
Theorem clean_text_idempotent (text : string) :
  _clean_text (_clean_text text) = _clean_text text.
Proof.
  destruct (collapse_ws_form (String.list_ascii_of_string text) false)
    as (Hall0 & _ & Hdbl0).
  pose proof (strip_form _ Hall0 Hdbl0) as Hform.
  unfold _clean_text.
  rewrite String.list_ascii_of_string_of_list_ascii.
  destruct Hform as (Hall & Hhead & Hlast & Hdbl).
  rewrite collapse_ws_id; [|exact Hall|exact Hdbl|discriminate].
  rewrite strip_id by (repeat split; assumption).
  reflexivity.
Qed.

(** ** Tokens *)

Lemma lower_char_token (c : ascii) :
  is_token_char (lower_char c) = true →
  is_lower_token_char (lower_char c) = true.
Proof.
  destruct c as [b0 b1 b2 b3 b4 b5 b6 b7].
  destruct b0, b1, b2, b3, b4, b5, b6, b7; vm_compute; intros H; exact H.
Qed.

Lemma flush_run_tokens (cur : list ascii) :
  Forall (λ c, is_lower_token_char c = true) cur →
  Forall (λ tok, tok ≠ EmptyString
                 ∧ Forall (λ c, is_lower_token_char c = true)
                     (String.list_ascii_of_string tok))
    (flush_run cur).
Proof.
  intros Hcur. destruct cur as [|c cur]; [constructor|].
  cbn [flush_run]. constructor; [|constructor]. split.
  - intros Heq.
    apply (f_equal String.list_ascii_of_string) in Heq.
    rewrite String.list_ascii_of_string_of_list_ascii in Heq.
    apply (f_equal (@List.length ascii)) in Heq.
    rewrite length_rev in Heq. discriminate Heq.
  - rewrite String.list_ascii_of_string_of_list_ascii.
    apply Forall_forall. intros x Hx. apply list_elem_of_In, in_rev in Hx.
    rewrite Forall_forall in Hcur. apply Hcur, list_elem_of_In, Hx.
Qed.

Lemma findall_runs_tokens (cs : list ascii) :
  ∀ cur,
    Forall (λ c, is_token_char c = true → is_lower_token_char c = true) cs →
    Forall (λ c, is_lower_token_char c = true) cur →
    Forall (λ tok, tok ≠ EmptyString
                   ∧ Forall (λ c, is_lower_token_char c = true)
                       (String.list_ascii_of_string tok))
      (findall_runs cs cur).
Proof.
  induction cs as [|c cs IH]; intros cur Hcs Hcur; cbn [findall_runs].
  - by apply flush_run_tokens.
  - apply Forall_cons in Hcs as [Hc Hcs].
    destruct (is_token_char c) eqn:Ec.
    + apply IH; [exact Hcs|]. constructor; [by apply Hc|exact Hcur].
    + apply Forall_app. split; [by apply flush_run_tokens|].
      apply IH; [exact Hcs|constructor].
Qed.

Lemma tokens_of_lower (text : string) :
  Forall (λ tok, tok ≠ EmptyString
                 ∧ Forall (λ c, is_lower_token_char c = true)
                     (String.list_ascii_of_string tok))
    (tokens_of text).
Proof.
  unfold tokens_of, findall_tokens, str_lower.
  rewrite String.list_ascii_of_string_of_list_ascii.
  apply findall_runs_tokens; [|constructor].
  apply Forall_forall. intros c Hc.
  apply list_elem_of_fmap in Hc as (c0 & -> & _). apply lower_char_token.
Qed.

(** X3: every token [_score_text] looks up is non-empty and made of
    lowercase letters and apostrophes only, whatever the text. *)
Theorem tokens_are_lowercase_words (text tok : string) :
  tok ∈ tokens_of text →
  tok ≠ EmptyString
  ∧ ∀ c, c ∈ String.list_ascii_of_string tok →
      (c = "'"%char ∨ (97 ≤ char_code c ≤ 122)%N).
Proof.
  intros Htok.
  pose proof (tokens_of_lower text) as Hall. rewrite Forall_forall in Hall.
  destruct (Hall tok Htok) as [Hne Hchars]. split; [exact Hne|].
  intros c Hc. rewrite Forall_forall in Hchars. specialize (Hchars c Hc).
  unfold is_lower_token_char in Hchars. cbv zeta in Hchars.
  apply orb_true_iff in Hchars as [Hrange|Hq].
  - right. apply andb_true_iff in Hrange as [Hlo Hhi].
    apply N.leb_le in Hlo, Hhi. split; assumption.
  - left. apply N.eqb_eq in Hq. unfold char_code in Hq.
    rewrite <- (ascii_N_embedding c), Hq. reflexivity.
Qed.

Lemma tokens_are_lowercase_words_witness :
  "bitcoin's"%string ∈ tokens_of "Bitcoin's RALLY"
  ∧ "bitcoin's"%string ≠ EmptyString.
Proof.
  assert (Hin : "bitcoin's"%string ∈ tokens_of "Bitcoin's RALLY")
    by (vm_compute; apply list_elem_of_here).
  split; [exact Hin|].
  exact (proj1 (tokens_are_lowercase_words _ _ Hin)).
Defined.

Lemma hyphenated_not_token (text word : string) :
  "-"%char ∈ String.list_ascii_of_string word → word ∉ tokens_of text.
Proof.
  intros Hhyphen Htok.
  pose proof (tokens_of_lower text) as Hall. rewrite Forall_forall in Hall.
  destruct (Hall word Htok) as [_ Hchars].
  rewrite Forall_forall in Hchars. specialize (Hchars _ Hhyphen).
  vm_compute in Hchars. discriminate.
Qed.

Lemma count_hits_without (words : gset string) (word : string)
    (tokens : list string) :
  word ∉ tokens →
  count_hits words tokens = count_hits (words ∖ {[word]}) tokens.
Proof.
  intros Hword. unfold count_hits. do 2 f_equal.
  induction tokens as [|t ts IH]; [reflexivity|].
  apply not_elem_of_cons in Hword as [Hne Hts].
  rewrite !filter_cons, (IH Hts).
  destruct (decide (t ∈ words)) as [Hin|Hout].
  - rewrite decide_True; [reflexivity|].
    apply elem_of_difference. split; [exact Hin|].
    rewrite elem_of_singleton. congruence.
  - rewrite decide_False; [reflexivity|].
    intros [Hin _]%elem_of_difference. contradiction.
Qed.

(** X4: the lexicon entries "risk-on" and "risk-off" are dead: a token
    never holds a hyphen, so no text hits them, and the counts are those
    of the lexicons without them. *)
Theorem hyphenated_lexicon_entries_never_hit (text : string) :
  ("risk-on"%string ∉ tokens_of text)
  ∧ ("risk-off"%string ∉ tokens_of text)
  ∧ count_hits POSITIVE_WORDS (tokens_of text) =
      count_hits (POSITIVE_WORDS ∖ {["risk-on"%string]}) (tokens_of text)
  ∧ count_hits NEGATIVE_WORDS (tokens_of text) =
      count_hits (NEGATIVE_WORDS ∖ {["risk-off"%string]}) (tokens_of text).
Proof.
  assert (Hon : "risk-on"%string ∉ tokens_of text)
    by (apply hyphenated_not_token; vm_compute; do 4 right; left).
  assert (Hoff : "risk-off"%string ∉ tokens_of text)
    by (apply hyphenated_not_token; vm_compute; do 4 right; left).
  split; [exact Hon|]. split; [exact Hoff|].
  split; apply count_hits_without; assumption.
Qed.

(** ** Sorting *)

Section StableSort.
Context {A : Type} (precedes : A → A → bool).
Hypothesis precedes_total : ∀ x y, precedes x y = false → precedes y x = true.
Hypothesis precedes_trans :
  ∀ x y z, precedes x y = true → precedes y z = true → precedes x z = true.

Lemma insert_sorted_StronglySorted (x : A) (l : list A) :
  StronglySorted (λ a b, precedes a b = true) l →
  StronglySorted (λ a b, precedes a b = true) (insert_sorted precedes x l).
Proof.
  induction 1 as [|y l Hl IH Hy]; cbn [insert_sorted].
  - repeat constructor.
  - destruct (precedes x y) eqn:Exy.
    + constructor; [by constructor|]. constructor; [exact Exy|].
      eapply Forall_impl; [exact Hy|]. intros z Hyz. by eapply precedes_trans.
    + constructor; [exact IH|].
      rewrite (insert_sorted_Permutation precedes x l).
      constructor; [by apply precedes_total|exact Hy].
Qed.

Lemma stable_sort_StronglySorted (l : list A) :
  StronglySorted (λ a b, precedes a b = true) (stable_sort precedes l).
Proof.
  unfold stable_sort. induction l as [|x l IH]; cbn [foldr]; [constructor|].
  by apply insert_sorted_StronglySorted.
Qed.

End StableSort.

Lemma StronglySorted_lookup {A} (R : A → A → Prop) (l : list A) :
  StronglySorted R l →
  ∀ i j a b, (i < j)%nat → l !! i = Some a → l !! j = Some b → R a b.
Proof.
  induction 1 as [|x l Hl IH Hx]; intros i j a b Hij Hi Hj; [discriminate|].
  destruct j as [|j]; [lia|]. cbn in Hj. destruct i as [|i].
  - cbn in Hi. injection Hi as <-. rewrite Forall_forall in Hx.
    apply Hx. by eapply list_elem_of_lookup_2.
  - cbn in Hi. apply (IH i j); [lia|exact Hi|exact Hj].
Qed.

Lemma StronglySorted_weaken {A} (R R' : A → A → Prop) (l : list A) :
  (∀ a b, R a b → R' a b) → StronglySorted R l → StronglySorted R' l.
Proof.
  intros HR. induction 1 as [|x l Hl IH Hx]; constructor; [exact IH|].
  eapply Forall_impl; [exact Hx|]. intros y. apply HR.
Qed.

Lemma fetch_news_StronglySorted (parse : string → list entry)
    (sources : list string) :
  StronglySorted newer_or_same (fetch_news parse sources).
Proof.
  unfold fetch_news. destruct (foldl _ _ sources) as [items seen].
  eapply StronglySorted_weaken;
    [|apply (stable_sort_StronglySorted
               (λ a b : NewsItem, published b <=? published a))].
  - intros a b Hab. apply Z.leb_le in Hab. exact Hab.
  - intros x y Hxy. apply Z.leb_gt in Hxy. apply Z.leb_le. lia.
  - intros x y z Hxy Hyz. apply Z.leb_le in Hxy, Hyz. apply Z.leb_le. lia.
Qed.

(** ** What [fetch_news] returns *)

Lemma fetch_news_Permutation (parse : string → list entry)
    (sources : list string) :
  fetch_news parse sources
  ≡ₚ dedupe_from ∅ (surviving_items parse sources).
Proof.
  unfold fetch_news. rewrite fetch_news_sources. cbn [app].
  apply stable_sort_Permutation.
Qed.

(** X5: the result of [fetch_news] is ordered newest first: an item never
    stands before one published later. *)
Theorem fetch_news_newest_first (parse : string → list entry)
    (sources : list string) (i j : nat) (a b : NewsItem) :
  (i < j)%nat →
  fetch_news parse sources !! i = Some a →
  fetch_news parse sources !! j = Some b →
  published b ≤ published a.
Proof.
  intros Hij Ha Hb.
  exact (StronglySorted_lookup newer_or_same _
           (fetch_news_StronglySorted parse sources) i j a b Hij Ha Hb).
Qed.

Lemma fetch_news_newest_first_witness :
  ∃ a b,
    fetch_news demo_parse ["a"; "b"]%string !! 0%nat = Some a
    ∧ fetch_news demo_parse ["a"; "b"]%string !! 1%nat = Some b
    ∧ title a = "Miners sell"%string ∧ title b = "Bitcoin Rally"%string
    ∧ published b ≤ published a.
Proof.
  eexists _, _.
  split; [vm_compute; reflexivity|]. split; [vm_compute; reflexivity|].
  split; [reflexivity|]. split; [reflexivity|].
  apply (fetch_news_newest_first demo_parse ["a"; "b"]%string 0 1);
    [lia|vm_compute; reflexivity|vm_compute; reflexivity].
Defined.

Lemma insert_sorted_same_time (t : Z) (x : NewsItem) (l : list NewsItem) :
  filter (λ it, published it = t)
    (insert_sorted (λ a b, published b <=? published a) x l)
  = filter (λ it, published it = t) (x :: l).
Proof.
  induction l as [|y l IH]; cbn [insert_sorted]; [reflexivity|].
  destruct (Z.leb_spec (published y) (published x)) as [Hle|Hgt];
    [reflexivity|].
  rewrite (filter_cons _ y), IH, !filter_cons.
  destruct (decide (published x = t)) as [Hx|Hx];
    destruct (decide (published y = t)) as [Hy|Hy]; try reflexivity.
  lia.
Qed.

(** X6: the sort of [fetch_news] is stable: the items published at the same
    time stand in the result in the order in which the loop kept them. *)
Theorem fetch_news_same_time_order (parse : string → list entry)
    (sources : list string) (t : datetime) :
  filter (λ it, published it = t) (fetch_news parse sources)
  = filter (λ it, published it = t)
      (dedupe_from ∅ (surviving_items parse sources)).
Proof.
  unfold fetch_news. rewrite fetch_news_sources. cbn [app].
  generalize (dedupe_from ∅ (surviving_items parse sources)).
  intros items. unfold stable_sort.
  induction items as [|x items IH]; cbn [foldr]; [reflexivity|].
  rewrite insert_sorted_same_time, !filter_cons, IH. reflexivity.
Qed.

Lemma dedupe_from_elem (x : NewsItem) (candidates : list NewsItem) :
  ∀ seen, x ∈ dedupe_from seen candidates →
          x ∈ candidates ∧ item_key x ∉ seen.
Proof.
  induction candidates as [|c rest IH]; intros seen Hx; cbn [dedupe_from] in Hx.
  - by apply elem_of_nil in Hx.
  - destruct (decide (item_key c ∈ seen)) as [Hin|Hout].
    + destruct (IH seen Hx) as [Hrest Hfresh].
      split; [by right|exact Hfresh].
    + apply elem_of_cons in Hx as [->|Hx]; [split; [by left|exact Hout]|].
      destruct (IH _ Hx) as [Hrest Hfresh]. split; [by right|].
      intros Hseen. apply Hfresh, elem_of_union_r, Hseen.
Qed.

Lemma dedupe_from_keys (k : dedupe_key_t) (candidates : list NewsItem) :
  ∀ seen, k ∈ map item_key candidates →
          k ∈ seen ∨ k ∈ map item_key (dedupe_from seen candidates).
Proof.
  induction candidates as [|c rest IH]; intros seen Hk; cbn [map] in Hk.
  - by apply elem_of_nil in Hk.
  - cbn [dedupe_from].
    destruct (decide (item_key c ∈ seen)) as [Hin|Hout].
    + apply elem_of_cons in Hk as [->|Hk]; [by left|by apply IH].
    + cbn [map]. apply elem_of_cons in Hk as [->|Hk]; [right; by left|].
      destruct (IH ({[item_key c]} ∪ seen) Hk) as [Hseen|Hkept].
      * apply elem_of_union in Hseen as [->%elem_of_singleton|Hseen];
          [right; by left|by left].
      * right. by right.
Qed.

Lemma dedupe_from_NoDup (candidates : list NewsItem) :
  ∀ seen, NoDup (map item_key (dedupe_from seen candidates)).
Proof.
  induction candidates as [|c rest IH]; intros seen; cbn [dedupe_from].
  - constructor.
  - destruct (decide (item_key c ∈ seen)); [apply IH|].
    cbn [map]. constructor; [|apply IH].
    intros Hdup. apply list_elem_of_fmap in Hdup as (x & Hkey & Hx).
    apply dedupe_from_elem in Hx as [_ Hfresh].
    apply Hfresh. rewrite <- Hkey.
    apply elem_of_union_l, elem_of_singleton. reflexivity.
Qed.

(** X7: no two items of the result share a (lowercased title, link) key,
    and the keys of the result are exactly the keys of the surviving
    entries: deduplication loses no key and invents none. *)
Theorem fetch_news_keys (parse : string → list entry)
    (sources : list string) :
  NoDup (map item_key (fetch_news parse sources))
  ∧ ∀ k, k ∈ map item_key (fetch_news parse sources)
         ↔ k ∈ map item_key (surviving_items parse sources).
Proof.
  pose proof (fetch_news_Permutation parse sources) as Hperm.
  split.
  - rewrite Hperm. apply dedupe_from_NoDup.
  - intros k. rewrite Hperm. split.
    + intros (x & -> & Hx)%list_elem_of_fmap.
      apply dedupe_from_elem in Hx as [Hx _].
      by apply list_elem_of_fmap_2.
    + intros Hk. destruct (dedupe_from_keys k _ ∅ Hk) as [Hempty|Hkept];
        [by apply elem_of_empty in Hempty|exact Hkept].
Qed.

Lemma clean_text_chars_form (text : string) :
  clean_form (String.list_ascii_of_string (_clean_text text)).
Proof.
  unfold _clean_text. rewrite String.list_ascii_of_string_of_list_ascii.
  destruct (collapse_ws_form (String.list_ascii_of_string text) false)
    as (Hall & _ & Hdbl).
  by apply strip_form.
Qed.

Lemma score_text_bounds (text : string) : (-1 <= _score_text text <= 1)%Q.
Proof.
  unfold _score_text. destruct (tokens_of text) as [|t ts].
  - apply score_facts_zero.
  - apply score_facts_ratio; apply count_hits_nonneg.
Qed.

Lemma entry_item_facts (e : entry) (item : NewsItem) :
  entry_item e = Some item →
  title item ≠ EmptyString
  ∧ clean_form (String.list_ascii_of_string (title item))
  ∧ clean_form (String.list_ascii_of_string (summary item))
  ∧ score item = _score_text (title item ++ " " ++ summary item)%string
  ∧ ∃ secs, py_or (published_parsed e) (updated_parsed e) = Some secs
            ∧ published item = secs * 1000000.
Proof.
  unfold entry_item. intros Hitem.
  destruct (py_or (published_parsed e) (updated_parsed e)) as [secs|] eqn:Et;
    [|discriminate Hitem].
  cbn [_to_datetime] in Hitem. cbv zeta in Hitem.
  destruct (bool_decide_reflect
              (_clean_text (default EmptyString (entry_title e)) = EmptyString))
    as [Hempty|Hfull]; [discriminate Hitem|].
  injection Hitem as <-. cbn [title summary score published].
  split; [exact Hfull|]. split; [apply clean_text_chars_form|].
  split; [apply clean_text_chars_form|]. split; [reflexivity|].
  exists secs. split; reflexivity.
Qed.

(** X8: every item of the result comes from an entry of one of the sources
    that has a time tuple, published or else updated, which is its publish
    time in whole seconds; its title is not empty; title and summary are
    in cleaned form; and its score is the lexicon score of the title, a
    space and the summary, hence within [-1, 1]. *)
Theorem fetch_news_items_wellformed (parse : string → list entry)
    (sources : list string) (item : NewsItem) :
  item ∈ fetch_news parse sources →
  (∃ url e, url ∈ sources ∧ e ∈ parse url
            ∧ (∃ secs, py_or (published_parsed e) (updated_parsed e)
                       = Some secs
                       ∧ published item = secs * 1000000))
  ∧ title item ≠ EmptyString
  ∧ clean_form (String.list_ascii_of_string (title item))
  ∧ clean_form (String.list_ascii_of_string (summary item))
  ∧ score item = _score_text (title item ++ " " ++ summary item)%string
  ∧ (-1 <= score item <= 1)%Q.
Proof.
  intros Hitem. rewrite fetch_news_Permutation in Hitem.
  apply dedupe_from_elem in Hitem as [Hitem _].
  unfold surviving_items in Hitem.
  apply list_elem_of_omap in Hitem as (e & He & Hentry).
  apply list_elem_of_In, in_concat in He as (entries & Hentries & He).
  apply in_map_iff in Hentries as (url & <- & Hurl).
  destruct (entry_item_facts e item Hentry)
    as (Htitle & Hct & Hcs & Hscore & Htime).
  split.
  { exists url, e. split; [by apply list_elem_of_In|].
    split; [by apply list_elem_of_In|exact Htime]. }
  split; [exact Htitle|]. split; [exact Hct|]. split; [exact Hcs|].
  split; [exact Hscore|]. rewrite Hscore. apply score_text_bounds.
Qed.

Lemma fetch_news_items_wellformed_witness :
  demo_first ∈ fetch_news demo_parse ["a"; "b"]%string
  ∧ title demo_first ≠ EmptyString
  ∧ (-1 <= score demo_first <= 1)%Q.
Proof.
  assert (Hin : demo_first ∈ fetch_news demo_parse ["a"; "b"]%string)
    by (vm_compute; right; left).
  split; [exact Hin|].
  destruct (fetch_news_items_wellformed _ _ _ Hin)
    as (_ & Htitle & _ & _ & _ & Hscore).
  split; [exact Htitle|exact Hscore].
Defined.

(** ** What [filter_recent] returns *)

Lemma same_day_within_24h (now p : datetime) :
  date p = date now → now - 24 * 3600 * 1000000 ≤ p.
Proof.
  unfold date, MICROS_PER_DAY, MICROS_PER_SECOND. intros Hday.
  pose proof (Z.mul_div_le p (86400 * 1000000) ltac:(lia)) as Hp.
  pose proof (Z.mul_succ_div_gt now (86400 * 1000000) ltac:(lia)) as Hnow.
  rewrite Hday in Hp. lia.
Qed.

(** X9: [filter_recent] only selects: its result is a sublist of the items,
    in their order.  The label is "today" exactly when some item falls on
    the reference day, and then the result is not empty; otherwise it is
    "none" under [today_only] and "last_24h" without it. *)
Theorem filter_recent_selects (items : list NewsItem) (now : datetime)
    (today_only : bool) :
  (filter_recent items now today_only).1 `sublist_of` items
  ∧ ((filter_recent items now today_only).2 = "today"%string
     ↔ ∃ item, item ∈ items ∧ date (published item) = date now)
  ∧ ((filter_recent items now today_only).2 = "today"%string →
     (filter_recent items now today_only).1 ≠ [])
  ∧ ((filter_recent items now today_only).2 ≠ "today"%string →
     (filter_recent items now today_only).2
     = if today_only then "none"%string else "last_24h"%string).
Proof.
  destruct (filter (on_reference_day now) items) as [|x today] eqn:Etoday.
  - rewrite (filter_recent_fallback items now today_only Etoday).
    pose proof (proj1 (filter_nil_iff _ _) Etoday) as Hnone.
    destruct today_only; cbn [fst snd].
    + split; [apply sublist_nil_l|]. split; [|split; [discriminate|done]].
      split; [discriminate|]. intros (item & Hin & Hday).
      by destruct (Hnone item Hin).
    + split; [apply sublist_filter|]. split; [|split; [discriminate|done]].
      split; [discriminate|]. intros (item & Hin & Hday).
      by destruct (Hnone item Hin).
  - assert (Hsome : filter (on_reference_day now) items ≠ [])
      by (rewrite Etoday; discriminate).
    rewrite (filter_recent_today items now today_only Hsome).
    cbn [fst snd]. split; [apply sublist_filter|]. split; [|split; [done|]].
    + split; [intros _|reflexivity]. exists x.
      assert (Hx : x ∈ filter (on_reference_day now) items)
        by (rewrite Etoday; left).
      apply list_elem_of_filter in Hx as [Hday Hin]. by split.
    + intros Hne. by destruct Hne.
Qed.

(** X10: whatever the tier, no item older than 24 hours is returned: the
    items of the reference day lie within the last-24h window too. *)
Theorem filter_recent_never_older_than_24h (items : list NewsItem)
    (now : datetime) (today_only : bool) (item : NewsItem) :
  item ∈ (filter_recent items now today_only).1 →
  item ∈ items ∧ now - 24 * 3600 * 1000000 ≤ published item.
Proof.
  destruct (filter (on_reference_day now) items) as [|x today] eqn:Etoday.
  - rewrite (filter_recent_fallback items now today_only Etoday).
    destruct today_only; cbn [fst].
    + intros Hin. by apply elem_of_nil in Hin.
    + intros [Hwin Hin]%list_elem_of_filter. split; [exact Hin|exact Hwin].
  - assert (Hsome : filter (on_reference_day now) items ≠ [])
      by (rewrite Etoday; discriminate).
    rewrite (filter_recent_today items now today_only Hsome). cbn [fst].
    intros [Hday Hin]%list_elem_of_filter.
    split; [exact Hin|by apply same_day_within_24h].
Qed.

Lemma filter_recent_never_older_than_24h_witness :
  let items :=
    [headline 1699920060 "BTC up"; headline 1699919000 "BTC drop";
     headline 1699300000 "BTC flat"] in
  let now := fromtimestamp 1699923600 in
  headline 1699920060 "BTC up" ∈ (filter_recent items now true).1
  ∧ now - 24 * 3600 * 1000000 ≤ published (headline 1699920060 "BTC up").
Proof.
  intros items now.
  assert (Hin : headline 1699920060 "BTC up"
                ∈ (filter_recent items now true).1)
    by (vm_compute; left).
  split; [exact Hin|].
  exact (proj2 (filter_recent_never_older_than_24h items now true _ Hin)).
Defined.

(** X11: filtering is idempotent: filtering the result again, with the
    same reference time and flag, gives the same result and label. *)
Theorem filter_recent_idempotent (items : list NewsItem) (now : datetime)
    (today_only : bool) :
  filter_recent (filter_recent items now today_only).1 now today_only
  = filter_recent items now today_only.
Proof.
  destruct (filter (on_reference_day now) items) as [|x today] eqn:Etoday.
  - rewrite (filter_recent_fallback items now today_only Etoday).
    destruct today_only; cbn [fst]; [reflexivity|].
    rewrite filter_recent_fallback.
    + rewrite list_filter_filter_l by done. reflexivity.
    + apply filter_nil_iff. intros y [_ Hy]%list_elem_of_filter.
      by apply (proj1 (filter_nil_iff _ _) Etoday).
  - assert (Hsome : filter (on_reference_day now) items ≠ [])
      by (rewrite Etoday; discriminate).
    rewrite (filter_recent_today items now today_only Hsome). cbn [fst].
    rewrite filter_recent_today.
    + rewrite list_filter_filter_l by done. reflexivity.
    + rewrite list_filter_filter_l by done. exact Hsome.
Qed.

(** ** More of the retry loop *)

Section FetchJsonMore.
Variable net : nat → outcome.
Variables (timeout retries : Z) (url : string).

Lemma fetch_json_loop_settles (k : nat) :
  ∀ (a : Z) (last_exc : option exn) (w : world) (causes : nat → string),
    a + Z.of_nat k ≤ retries →
    (∀ i, (i < k)%nat →
          net (requests_sent w + i)%nat
          = Raises (RequestException (causes i))) →
    ¬ is_transport_error (net (requests_sent w + k)%nat) →
    fetch_json_loop net timeout retries url (py_range a (retries + 1))
      last_exc w =
      (settled (net (requests_sent w + k)%nat),
       mkWorld (requests_sent w + k + 1)
         (events w
            ++ flat_map (attempt_then_wait url timeout)
                 (py_range a (a + Z.of_nat k))
            ++ [Request url timeout])).
Proof.
  induction k as [|k IH]; intros a last_exc w causes Hk Hfail Hsettle.
  - rewrite (py_range_cons a (retries + 1)) by lia.
    rewrite (py_range_empty a (a + Z.of_nat 0)) by lia.
    cbn [fetch_json_loop flat_map app].
    rewrite Nat.add_0_r in *. unfold do_request.
    replace (requests_sent w + 1)%nat with (S (requests_sent w)) by lia.
    destruct (net (requests_sent w)) as [doc|e]; [reflexivity|].
    destruct e; try reflexivity.
    destruct Hsettle. by eexists.
  - rewrite (py_range_cons a (retries + 1)) by lia.
    cbn [fetch_json_loop].
    pose proof (Hfail 0%nat ltac:(lia)) as H0. rewrite Nat.add_0_r in H0.
    rewrite H0.
    replace (a <? retries) with true by (symmetry; apply Z.ltb_lt; lia).
    set (w' := do_sleep _ _).
    assert (Hsent : requests_sent w' = S (requests_sent w)) by reflexivity.
    rewrite (IH (a + 1) _ w' (λ i, causes (S i))).
    + rewrite Hsent.
      replace (S (requests_sent w) + k)%nat
        with (requests_sent w + S k)%nat by lia.
      f_equal. f_equal.
      replace (a + 1 + Z.of_nat k) with (a + Z.of_nat (S k)) by lia.
      rewrite (py_range_cons a (a + Z.of_nat (S k))) by lia.
      subst w'. cbn. rewrite <- !app_assoc. reflexivity.
    + lia.
    + intros i Hi. rewrite Hsent.
      replace (S (requests_sent w) + i)%nat
        with (requests_sent w + S i)%nat by lia.
      apply Hfail. lia.
    + rewrite Hsent.
      replace (S (requests_sent w) + k)%nat
        with (requests_sent w + S k)%nat by lia.
      exact Hsettle.
Qed.

(** X12: when the first [k] requests fail with transport errors and the
    next one, still within [retries], answers, [fetch_json] returns that
    answer after exactly [k + 1] requests, having waited 1.5 * i after each
    failed attempt i and not after the one that answered. *)
Theorem fetch_json_succeeds_after_failures (w : world) (k : nat)
    (causes : nat → string) (doc : chart_t) :
  Z.of_nat k < retries →
  (∀ i, (i < k)%nat →
        net (requests_sent w + i)%nat
        = Raises (RequestException (causes i))) →
  net (requests_sent w + k)%nat = Body doc →
  fetch_json net timeout retries url w =
    (inr doc,
     mkWorld (requests_sent w + k + 1)
       (events w
          ++ flat_map (attempt_then_wait url timeout)
               (py_range 1 (1 + Z.of_nat k))
          ++ [Request url timeout])).
Proof.
  intros Hk Hfail Hdoc. unfold fetch_json.
  rewrite (fetch_json_loop_settles k 1 None w causes); [|lia|exact Hfail|].
  - rewrite Hdoc. reflexivity.
  - rewrite Hdoc. intros [detail Heq]. discriminate Heq.
Qed.

(** X13: an exception that is not a transport error is not retried: it
    leaves [fetch_json] as it is, not wrapped in the retrieval error, right
    after the request that raised it, with no wait and no further
    request, whatever [retries] still allows. *)
Theorem fetch_json_other_exception_propagates (w : world) (k : nat)
    (causes : nat → string) (e : exn) :
  Z.of_nat k < retries →
  (∀ i, (i < k)%nat →
        net (requests_sent w + i)%nat
        = Raises (RequestException (causes i))) →
  net (requests_sent w + k)%nat = Raises e →
  (∀ detail, e ≠ RequestException detail) →
  fetch_json net timeout retries url w =
    (inl e,
     mkWorld (requests_sent w + k + 1)
       (events w
          ++ flat_map (attempt_then_wait url timeout)
               (py_range 1 (1 + Z.of_nat k))
          ++ [Request url timeout])).
Proof.
  intros Hk Hfail He Hother. unfold fetch_json.
  rewrite (fetch_json_loop_settles k 1 None w causes); [|lia|exact Hfail|].
  - rewrite He. reflexivity.
  - rewrite He. intros [detail Heq]. injection Heq as ->.
    by apply (Hother detail).
Qed.

End FetchJsonMore.

Lemma fetch_json_succeeds_after_failures_witness :
  let net := λ n : nat,
    if (n <? 2)%nat then Raises (RequestException "timed out")
    else Body demo_week in
  2 < 3
  ∧ fetch_json net 25 3 "u" world0 =
      (inr demo_week,
       mkWorld 3
         [Request "u" 25; Sleep ((3 # 2) * 1); Request "u" 25;
          Sleep ((3 # 2) * 2); Request "u" 25]).
Proof.
  intros net. split; [lia|].
  refine (fetch_json_succeeds_after_failures net 25 3 "u" world0 2
            (λ _, "timed out"%string) demo_week _ _ _).
  - lia.
  - intros [|[|i]] Hi; [reflexivity|reflexivity|lia].
  - reflexivity.
Defined.

Lemma fetch_json_other_exception_propagates_witness :
  let net := λ n : nat,
    if (n <? 1)%nat then Raises (RequestException "timed out")
    else Raises (OtherException "interrupted") in
  1 < 3
  ∧ fetch_json net 25 3 "u" world0 =
      (inl (OtherException "interrupted"),
       mkWorld 2 [Request "u" 25; Sleep ((3 # 2) * 1); Request "u" 25]).
Proof.
  intros net. split; [lia|].
  refine (fetch_json_other_exception_propagates net 25 3 "u" world0 1
            (λ _, "timed out"%string) (OtherException "interrupted")
            _ _ _ _).
  - lia.
  - intros [|i] Hi; [reflexivity|lia].
  - reflexivity.
  - intros detail Heq. discriminate Heq.
Defined.

Lemma total_sleep_sleep (seconds : Q) (evs : list event) :
  total_sleep (Sleep seconds :: evs) = (seconds + total_sleep evs)%Q.
Proof. reflexivity. Qed.

Lemma total_sleep_request (url : string) (timeout : Z) (evs : list event) :
  total_sleep (Request url timeout :: evs) = total_sleep evs.
Proof. reflexivity. Qed.

Lemma total_sleep_app (evs1 evs2 : list event) :
  (total_sleep (evs1 ++ evs2) == total_sleep evs1 + total_sleep evs2)%Q.
Proof.
  induction evs1 as [|ev evs1 IH]; cbn [app].
  - change (total_sleep []) with 0%Q. ring.
  - destruct ev.
    + rewrite !total_sleep_request. exact IH.
    + rewrite !total_sleep_sleep, IH. ring.
Qed.

Lemma total_sleep_waits (url : string) (timeout : Z) (n : nat) :
  ∀ a : Z,
    (total_sleep (flat_map (attempt_then_wait url timeout)
                    (py_range a (a + Z.of_nat n)))
     == (3 # 4) * (inject_Z (Z.of_nat n)
                   * (2 * inject_Z a + inject_Z (Z.of_nat n) - 1)))%Q.
Proof.
  induction n as [|n IH]; intros a.
  - rewrite py_range_empty by lia. cbn [flat_map].
    change (total_sleep []) with 0%Q. cbn [Z.of_nat]. ring.
  - rewrite py_range_cons by lia.
    replace (a + Z.of_nat (S n)) with (a + 1 + Z.of_nat n) by lia.
    cbn [flat_map attempt_then_wait app].
    rewrite total_sleep_request, total_sleep_sleep.
    rewrite IH, Nat2Z.inj_succ. unfold Z.succ.
    rewrite !inject_Z_plus. ring.
Qed.

Section FetchJsonBounds.
Variable net : nat → outcome.
Variables (timeout retries : Z) (url : string).

(** X14: when every attempt fails with a transport error, the time spent
    waiting is 0.75 * retries * (retries - 1) seconds in all: 4.5 seconds
    for the three attempts [main] and [load_data] allow. *)
Theorem fetch_json_total_backoff (w : world) (causes : nat → string) :
  1 ≤ retries →
  (∀ k, (k < Z.to_nat retries)%nat →
        net (requests_sent w + k)%nat
        = Raises (RequestException (causes k))) →
  (total_sleep (events (fetch_json net timeout retries url w).2)
   == total_sleep (events w)
      + (3 # 4) * (inject_Z retries * (inject_Z retries - 1)))%Q.
Proof.
  intros Hretries Hnet. unfold fetch_json.
  rewrite (fetch_json_loop_exhausted net timeout retries url
             (Z.to_nat retries) 1 None w causes) by (lia || exact Hnet).
  cbn [snd events]. rewrite !total_sleep_app.
  replace (py_range 1 retries)
    with (py_range 1 (1 + Z.of_nat (Z.to_nat (retries - 1))))
    by (f_equal; lia).
  rewrite total_sleep_waits.
  replace (Z.of_nat (Z.to_nat (retries - 1))) with (retries + - (1)) by lia.
  rewrite inject_Z_plus, inject_Z_opp.
  destruct (Z.to_nat retries) eqn:E; [lia|].
  rewrite total_sleep_request. change (total_sleep []) with 0%Q.
  change (inject_Z 1) with 1%Q. ring.
Qed.

Lemma fetch_json_loop_bounds (attempts : list Z) :
  ∀ (last_exc : option exn) (w : world),
    (∀ a, last attempts = Some a → retries ≤ a) →
    let w' := (fetch_json_loop net timeout retries url attempts last_exc w).2 in
    (requests_sent w' ≤ requests_sent w + List.length attempts)%nat
    ∧ ∃ new,
        events w' = events w ++ new
        ∧ (attempts ≠ [] →
           (requests_sent w < requests_sent w')%nat
           ∧ last new = Some (Request url timeout)).
Proof.
  induction attempts as [|attempt rest IH]; intros last_exc w Hlast.
  - cbn. split; [lia|]. exists []. split; [by rewrite app_nil_r|done].
  - cbn [fetch_json_loop].
    assert (Hone : ∀ r : fallible chart_t,
      let w' := (r, do_request url timeout w).2 in
      (requests_sent w' ≤ requests_sent w + List.length (attempt :: rest))%nat
      ∧ ∃ new,
          events w' = events w ++ new
          ∧ (attempt :: rest ≠ [] →
             (requests_sent w < requests_sent w')%nat
             ∧ last new = Some (Request url timeout))).
    { intros r. cbn. split; [lia|]. exists [Request url timeout].
      split; [reflexivity|]. intros _. split; [lia|reflexivity]. }
    destruct (net (requests_sent w)) as [doc|e]; [apply Hone|].
    destruct e; try apply Hone.
    set (w2 := if attempt <? retries then _ else _).
    assert (Hsent : requests_sent w2 = S (requests_sent w))
      by (subst w2; destruct (attempt <? retries); reflexivity).
    assert (Hlast' : ∀ a, last rest = Some a → retries ≤ a).
    { intros a Ha. apply Hlast. rewrite last_cons, Ha. reflexivity. }
    destruct (IH (Some (RequestException detail)) w2 Hlast')
      as (Hbound & new & Hnew & Hend).
    cbv zeta. split; [rewrite Hsent in Hbound; cbn [List.length]; lia|].
    destruct rest as [|next rest].
    + exists [Request url timeout]. cbn [fetch_json_loop snd].
      assert (Hw2 : w2 = do_request url timeout w).
      { subst w2. replace (attempt <? retries) with false; [reflexivity|].
        symmetry. apply Z.ltb_ge, Hlast. reflexivity. }
      rewrite Hw2. cbn. split; [reflexivity|]. intros _.
      split; [lia|reflexivity].
    + destruct (Hend ltac:(discriminate)) as [Hmore Hreq].
      assert (Hev2 : ∃ pre, events w2 = events w ++ pre ∧ pre ≠ []).
      { subst w2. destruct (attempt <? retries); cbn.
        - eexists. rewrite <- app_assoc. split; [reflexivity|discriminate].
        - eexists. split; [reflexivity|discriminate]. }
      destruct Hev2 as (pre & Hpre & _).
      exists (pre ++ new). rewrite Hnew, Hpre, <- app_assoc.
      split; [reflexivity|]. intros _. split; [lia|].
      rewrite last_app, Hreq. reflexivity.
Qed.

Lemma py_range_last (lo hi : Z) :
  ∀ a, last (py_range lo hi) = Some a → a = hi - 1.
Proof.
  unfold py_range. intros a Ha.
  destruct (Z.to_nat (hi - lo)) as [|n] eqn:En; [discriminate Ha|].
  rewrite seq_S, map_app in Ha. cbn [map] in Ha. rewrite last_snoc in Ha.
  injection Ha as <-. lia.
Qed.

Lemma fetch_json_request_bound_aux (w : world) :
  (requests_sent (fetch_json net timeout retries url w).2
   ≤ requests_sent w + Z.to_nat retries)%nat.
Proof.
  unfold fetch_json.
  destruct (fetch_json_loop_bounds (py_range 1 (retries + 1)) None w)
    as (Hbound & _).
  { intros a Ha. apply py_range_last in Ha. lia. }
  assert (Hlen : List.length (py_range 1 (retries + 1)) = Z.to_nat retries)
    by (unfold py_range; rewrite length_map, length_seq; lia).
  cbv zeta in Hbound. rewrite Hlen in Hbound. exact Hbound.
Qed.

(** X15: whatever the network answers, [fetch_json] never sends more than
    [retries] requests; it only appends to the log; and with
    [retries >= 1] it sends at least one request and the last thing it does
    is a request, never a wait. *)
Theorem fetch_json_request_bound (w : world) :
  let w' := (fetch_json net timeout retries url w).2 in
  (requests_sent w' ≤ requests_sent w + Z.to_nat retries)%nat
  ∧ ∃ new,
      events w' = events w ++ new
      ∧ (1 ≤ retries →
         (requests_sent w < requests_sent w')%nat
         ∧ last new = Some (Request url timeout)).
Proof.
  unfold fetch_json.
  destruct (fetch_json_loop_bounds (py_range 1 (retries + 1)) None w)
    as (Hbound & new & Hnew & Hend).
  { intros a Ha. apply py_range_last in Ha. lia. }
  cbv zeta. split.
  - assert (Hlen : List.length (py_range 1 (retries + 1)) = Z.to_nat retries)
      by (unfold py_range; rewrite length_map, length_seq; lia).
    rewrite Hlen in Hbound. exact Hbound.
  - exists new. split; [exact Hnew|]. intros Hretries. apply Hend.
    rewrite py_range_cons by lia. discriminate.
Qed.

End FetchJsonBounds.

Lemma fetch_json_total_backoff_witness :
  let net := λ _ : nat, Raises (RequestException "timed out") in
  1 ≤ 3
  ∧ (total_sleep (events (fetch_json net 25 3 "u" world0).2) == 9 # 2)%Q.
Proof.
  intros net. split; [lia|].
  pose proof (fetch_json_total_backoff net 25 3 "u" world0
                (λ _, "timed out"%string) ltac:(lia) (λ k _, eq_refl)) as H.
  rewrite H. vm_compute. reflexivity.
Defined.

(** ** More of the price snapshot *)

Lemma cleaned_of_chart_error (doc : chart_t) (e : exn) :
  cleaned_of_chart doc = inl e →
  ∃ msg, e = RuntimeError msg None ∧ msg ∈ SHAPE_ERRORS.
Proof.
  unfold cleaned_of_chart. cbv zeta. intros He.
  repeat match type of He with
         | context [match ?x with _ => _ end] => destruct x eqn:?
         end;
    try discriminate He; injection He as <-;
    (eexists; split; [reflexivity|]);
    apply list_elem_of_In; cbn; tauto.
Qed.

(** X16: a document that arrives is never fetched again.  When the first
    request answers, [fetch_price_snapshot] sends that one request, waits
    for nothing, and its result is decided by the document alone; a
    document of the wrong shape ends in one of the four shape errors, a
    RuntimeError without a cause. *)
Theorem fetch_price_snapshot_one_request (net : nat → outcome)
    (symbol : string) (timeout retries : Z) (w : world) (doc : chart_t) :
  1 ≤ retries →
  net (requests_sent w) = Body doc →
  fetch_price_snapshot net symbol timeout retries w =
    (cleaned_of_chart doc ≫= snapshot_of_cleaned,
     mkWorld (S (requests_sent w))
       (events w ++ [Request (chart_url_of symbol) timeout]))
  ∧ ∀ e, cleaned_of_chart doc = inl e →
      (fetch_price_snapshot net symbol timeout retries w).1 = inl e
      ∧ ∃ msg, e = RuntimeError msg None ∧ msg ∈ SHAPE_ERRORS.
Proof.
  intros Hretries Hdoc.
  assert (Hfetch : fetch_price_snapshot net symbol timeout retries w =
    (cleaned_of_chart doc ≫= snapshot_of_cleaned,
     mkWorld (S (requests_sent w))
       (events w ++ [Request (chart_url_of symbol) timeout]))).
  { unfold fetch_price_snapshot, fetch_json.
    rewrite (fetch_json_loop_settles net timeout retries (chart_url_of symbol)
               0 1 None w (λ _, EmptyString)).
    - rewrite Nat.add_0_r, Hdoc. cbn [settled].
      rewrite (py_range_empty 1 (1 + Z.of_nat 0)) by lia.
      cbn [flat_map app]. do 2 f_equal. lia.
    - lia.
    - intros i Hi. lia.
    - rewrite Nat.add_0_r, Hdoc. intros [detail Heq]. discriminate Heq. }
  split; [exact Hfetch|].
  intros e He. rewrite Hfetch, He. split; [reflexivity|].
  by apply (cleaned_of_chart_error doc).
Qed.

Lemma fetch_price_snapshot_one_request_witness :
  1 ≤ 3
  ∧ fetch_price_snapshot (always (mkChart None)) YAHOO_SYMBOL 25 3 world0 =
      (inl (RuntimeError "No chart data returned from Yahoo Finance." None),
       mkWorld 1 [Request (chart_url_of YAHOO_SYMBOL) 25]).
Proof.
  split; [lia|].
  exact (proj1 (fetch_price_snapshot_one_request (always (mkChart None))
                  YAHOO_SYMBOL 25 3 world0 (mkChart None)
                  ltac:(lia) eq_refl)).
Defined.

Lemma clean_closes_app_step (pairs : list (Z * option Q)) :
  ∀ acc : list (Z * Q),
    foldl (λ cleaned '(ts, close),
             match close with
             | None => cleaned
             | Some c => cleaned ++ [(ts, c)]
             end) acc pairs
    = acc ++ omap (λ '(ts, close), pair ts <$> close) pairs.
Proof.
  induction pairs as [|[ts [c|]] pairs IH]; intros acc; cbn [foldl].
  - cbn. by rewrite app_nil_r.
  - rewrite IH, omap_cons. cbn. by rewrite <- app_assoc.
  - rewrite IH, omap_cons. reflexivity.
Qed.

Lemma clean_closes_omap (timestamps : list Z) (closes : list (option Q)) :
  clean_closes timestamps closes
  = omap (λ '(ts, close), pair ts <$> close) (zip timestamps closes).
Proof. unfold clean_closes. by rewrite clean_closes_app_step. Qed.

(** X17: a close is kept exactly with the timestamp at its own index: the
    pair (t, c) is in the cleaned series iff some index holds t among the
    timestamps and the non-null close c among the closes.  Nulls are
    dropped and what one list has beyond the other is ignored, so the
    series is no longer than either list. *)
Theorem clean_closes_by_index (timestamps : list Z)
    (closes : list (option Q)) :
  (∀ t c, (t, c) ∈ clean_closes timestamps closes
          ↔ ∃ i, timestamps !! i = Some t ∧ closes !! i = Some (Some c))
  ∧ (List.length (clean_closes timestamps closes)
     ≤ List.length timestamps `min` List.length closes)%nat.
Proof.
  rewrite clean_closes_omap. split.
  - intros t c. rewrite list_elem_of_omap. split.
    + intros ([t' [c'|]] & Hin & Heq); [|discriminate Heq].
      injection Heq as -> ->.
      apply list_elem_of_lookup in Hin as [i Hi].
      apply lookup_zip_with_Some in Hi as (x & y & [= <- <-] & Ht & Hc).
      by exists i.
    + intros (i & Ht & Hc). exists (t, Some c). split; [|reflexivity].
      apply list_elem_of_lookup. exists i.
      apply lookup_zip_with_Some. by exists t, (Some c).
  - revert closes. induction timestamps as [|t ts IH]; intros [|c cl];
      try (cbn; lia).
    cbn [zip_with]. rewrite omap_cons. specialize (IH cl).
    destruct c; cbn [fmap option_fmap option_map List.length]; lia.
Qed.

Lemma sorted_series_StronglySorted (cleaned : list (Z * Q)) :
  StronglySorted earlier_or_same (sorted_series cleaned).
Proof.
  unfold sorted_series.
  eapply StronglySorted_weaken;
    [|apply (stable_sort_StronglySorted (λ a b : Z * Q, a.1 <=? b.1))].
  - intros a b Hab. apply Z.leb_le in Hab. exact Hab.
  - intros x y Hxy. apply Z.leb_gt in Hxy. apply Z.leb_le. lia.
  - intros x y z Hxy Hyz. apply Z.leb_le in Hxy, Hyz. apply Z.leb_le. lia.
Qed.

Lemma sorted_series_Permutation (cleaned : list (Z * Q)) :
  sorted_series cleaned ≡ₚ cleaned.
Proof. apply stable_sort_Permutation. Qed.

Lemma snapshot_of_cleaned_inr (cleaned0 : list (Z * Q)) (s : FuturesSnapshot) :
  snapshot_of_cleaned cleaned0 = inr s →
  ∃ pre ty y tl l,
    sorted_series cleaned0 = pre ++ [(ty, y); (tl, l)]
    ∧ ¬ (y == 0)%Q
    ∧ s = mkFuturesSnapshot l (fromtimestamp tl) y (fromtimestamp ty)
            ((l - y) / y * 100)%Q
            match abs_returns (sorted_series cleaned0) with
            | [] => 0%Q
            | _ => (py_sum (abs_returns (sorted_series cleaned0))
                    / inject_Z (Z.of_nat (List.length
                        (abs_returns (sorted_series cleaned0)))))%Q
            end.
Proof.
  intros Hs.
  destruct (le_lt_dec 2 (List.length cleaned0)) as [Hlen|Hshort].
  - destruct (sorted_series_last_two cleaned0 Hlen)
      as (pre & ty & y & tl & l & Hsorted).
    exists pre, ty, y, tl, l. split; [exact Hsorted|].
    rewrite (snapshot_of_cleaned_prior_close _ _ _ _ _ _ Hsorted) in Hs.
    destruct (Qeq_bool y 0) eqn:Ey; [discriminate Hs|].
    split; [by apply Qeq_bool_neq|]. by injection Hs as <-.
  - exfalso. unfold snapshot_of_cleaned, index_from_end in Hs.
    pose proof (Permutation_length (sorted_series_Permutation cleaned0))
      as Hperm.
    rewrite <- length_rev in Hperm.
    destruct (rev (sorted_series cleaned0)) as [|p [|q r]];
      cbn in Hperm, Hs; try discriminate Hs; try lia.
    destruct p. discriminate Hs.
Qed.

(** X18: the order in which the bars arrive does not matter: two cleaned
    series with the same bars, no two of them with the same timestamp,
    give the same snapshot, or the same error. *)
Theorem snapshot_of_cleaned_order_independent (cleaned1 cleaned2 : list (Z * Q)) :
  cleaned1 ≡ₚ cleaned2 →
  NoDup (map fst cleaned1) →
  snapshot_of_cleaned cleaned1 = snapshot_of_cleaned cleaned2.
Proof.
  intros Hperm Hnodup.
  assert (Hsorted : sorted_series cleaned1 = sorted_series cleaned2).
  { apply (StronglySorted_unique_strong earlier_or_same);
      [|apply sorted_series_StronglySorted..|].
    - intros x1 x2 Hx1 Hx2 H12 H21.
      rewrite sorted_series_Permutation in Hx1, Hx2.
      rewrite <- Hperm in Hx2. unfold earlier_or_same in *.
      assert (Hfst : x1.1 = x2.1) by lia.
      apply list_elem_of_lookup in Hx1 as [i Hi], Hx2 as [j Hj].
      assert (Hij : i = j).
      { apply (NoDup_lookup _ i j x1.1 Hnodup).
        - rewrite list_lookup_fmap, Hi. reflexivity.
        - rewrite list_lookup_fmap, Hj, Hfst. reflexivity. }
      subst j. congruence.
    - rewrite !sorted_series_Permutation. exact Hperm. }
  unfold snapshot_of_cleaned. rewrite Hsorted. reflexivity.
Qed.

Lemma snapshot_of_cleaned_order_independent_witness :
  [(2, 110%Q); (1, 100%Q)] ≡ₚ [(1, 100%Q); (2, 110%Q)]
  ∧ snapshot_of_cleaned [(2, 110%Q); (1, 100%Q)]
    = snapshot_of_cleaned [(1, 100%Q); (2, 110%Q)].
Proof.
  assert (Hperm : [(2, 110%Q); (1, 100%Q)] ≡ₚ [(1, 100%Q); (2, 110%Q)])
    by apply Permutation_swap.
  split; [exact Hperm|].
  apply (snapshot_of_cleaned_order_independent _ _ Hperm).
  cbn [map fst]. apply NoDup_cons. split; [|apply NoDup_singleton].
  intros Hin. apply list_elem_of_singleton in Hin. discriminate Hin.
Defined.

(** X19: a snapshot is built from the two latest bars: the last close is
    the close of a bar no earlier than any other, the prior close that of
    a bar no earlier than all the rest, and so the time of the prior close
    is never after the time of the last close. *)
Theorem snapshot_uses_latest_bars (cleaned0 : list (Z * Q))
    (s : FuturesSnapshot) :
  snapshot_of_cleaned cleaned0 = inr s →
  ∃ rest ty tl,
    cleaned0 ≡ₚ rest ++ [(ty, yesterday_close s); (tl, last_price s)]
    ∧ yesterday_close_time s = fromtimestamp ty
    ∧ last_close_time s = fromtimestamp tl
    ∧ ty ≤ tl
    ∧ (∀ bar, bar ∈ rest → bar.1 ≤ ty)
    ∧ yesterday_close_time s ≤ last_close_time s.
Proof.
  intros Hs.
  destruct (snapshot_of_cleaned_inr cleaned0 s Hs)
    as (pre & ty & y & tl & l & Hsorted & _ & ->).
  cbn [yesterday_close last_price yesterday_close_time last_close_time].
  pose proof (sorted_series_StronglySorted cleaned0) as Hss.
  rewrite Hsorted in Hss.
  apply StronglySorted_app in Hss as (Hrest & _ & Hpair).
  apply StronglySorted_inv in Hpair as [_ Hyl].
  apply Forall_cons in Hyl as [Hyl _]. unfold earlier_or_same in *.
  cbn [fst] in Hyl.
  exists pre, ty, tl. split.
  { rewrite <- Hsorted. symmetry. apply sorted_series_Permutation. }
  split; [reflexivity|]. split; [reflexivity|]. split; [exact Hyl|].
  split.
  - intros bar Hbar. apply (Hrest bar (ty, y)); [exact Hbar|left].
  - unfold fromtimestamp, MICROS_PER_SECOND. lia.
Qed.

Lemma snapshot_uses_latest_bars_witness :
  snapshot_of_cleaned [(2, 110%Q); (1, 100%Q)] = inr demo_snapshot
  ∧ yesterday_close_time demo_snapshot ≤ last_close_time demo_snapshot.
Proof.
  assert (Hs : snapshot_of_cleaned [(2, 110%Q); (1, 100%Q)] = inr demo_snapshot)
    by (vm_compute; reflexivity).
  split; [exact Hs|].
  destruct (snapshot_uses_latest_bars _ _ Hs)
    as (rest & ty & tl & _ & _ & _ & _ & _ & Htimes).
  exact Htimes.
Defined.

Lemma code_returns_nonneg (closes : list Q) :
  Forall (λ r, (0 <= r)%Q) (code_returns closes).
Proof.
  induction closes as [|prev rest IH]; [constructor|].
  cbn [code_returns]. destruct rest as [|cur rest]; [constructor|].
  apply Forall_app. split; [|exact IH].
  destruct (Qlt_bool 0 prev); [|constructor].
  constructor; [apply Qabs_nonneg|constructor].
Qed.

Lemma foldr_Qplus_nonneg (xs : list Q) :
  Forall (λ r, (0 <= r)%Q) xs → (0 <= foldr Qplus 0 xs)%Q.
Proof.
  induction 1 as [|x xs Hx _ IH]; cbn [foldr]; [apply Qle_refl|].
  apply Qle_trans with (0 + 0)%Q; [apply Qle_refl|]. by apply Qplus_le_compat.
Qed.

Lemma mean_abs_returns_nonneg (cleaned : list (Z * Q)) :
  (0 <= match abs_returns cleaned with
        | [] => 0
        | _ => py_sum (abs_returns cleaned)
               / inject_Z (Z.of_nat (List.length (abs_returns cleaned)))
        end)%Q.
Proof.
  rewrite abs_returns_code_returns.
  pose proof (code_returns_nonneg (map snd cleaned)) as Hall.
  destruct (code_returns (map snd cleaned)) as [|r rs] eqn:E;
    [apply Qle_refl|].
  apply Qle_shift_div_l.
  - rewrite <- (Zlt_Qlt 0). cbn [List.length]. lia.
  - rewrite Qmult_0_l, py_sum_foldr. by apply foldr_Qplus_nonneg.
Qed.

(** X20: in every snapshot the prior close is not 0; the last price is
    recovered from the prior close and the percentage change; the change is
    0 exactly when the two closes are equal; and the average absolute
    return is never negative. *)
Theorem snapshot_numbers (cleaned0 : list (Z * Q)) (s : FuturesSnapshot) :
  snapshot_of_cleaned cleaned0 = inr s →
  ¬ (yesterday_close s == 0)%Q
  ∧ (yesterday_close s * (1 + pct_change_since_close s / 100)
     == last_price s)%Q
  ∧ ((pct_change_since_close s == 0)%Q
     ↔ (last_price s == yesterday_close s)%Q)
  ∧ (0 <= avg_abs_daily_return s)%Q.
Proof.
  intros Hs.
  destruct (snapshot_of_cleaned_inr cleaned0 s Hs)
    as (pre & ty & y & tl & l & _ & Hy & ->).
  cbn [yesterday_close last_price pct_change_since_close
       avg_abs_daily_return].
  split; [exact Hy|]. split; [field; exact Hy|]. split.
  - split; intros Heq.
    + assert (Hl : (l == y * (1 + (l - y) / y * 100 / 100))%Q)
        by (field; exact Hy).
      rewrite Hl, Heq. field.
    + rewrite Heq. field. exact Hy.
  - apply mean_abs_returns_nonneg.
Qed.

Lemma snapshot_numbers_witness :
  snapshot_of_cleaned [(2, 110%Q); (1, 100%Q)] = inr demo_snapshot
  ∧ (yesterday_close demo_snapshot
     * (1 + pct_change_since_close demo_snapshot / 100)
     == last_price demo_snapshot)%Q.
Proof.
  assert (Hs : snapshot_of_cleaned [(2, 110%Q); (1, 100%Q)] = inr demo_snapshot)
    by (vm_compute; reflexivity).
  split; [exact Hs|].
  exact (proj1 (proj2 (snapshot_numbers _ _ Hs))).
Defined.

(** ** More of combining and projecting *)

Lemma py_clamp_bounds (x : Q) : (-1 <= py_max (-1) (py_min 1 x) <= 1)%Q.
Proof.
  unfold py_max, py_min.
  destruct (Qlt_bool_spec x 1) as [Hx|Hx].
  - destruct (Qlt_bool_spec (-1) x) as [Hlo|Hlo]; lra.
  - destruct (Qlt_bool_spec (-1) 1) as [Hlo|Hlo]; lra.
Qed.

Lemma foldr_Qplus_bounds (xs : list Q) :
  Forall (λ x, (-1 <= x <= 1)%Q) xs →
  (- inject_Z (Z.of_nat (List.length xs)) <= foldr Qplus 0 xs
   <= inject_Z (Z.of_nat (List.length xs)))%Q.
Proof.
  induction 1 as [|x xs Hx _ IH]; cbn [foldr List.length].
  - change (inject_Z (Z.of_nat 0)) with 0%Q. lra.
  - rewrite Nat2Z.inj_succ. unfold Z.succ. rewrite inject_Z_plus.
    change (inject_Z 1) with 1%Q. lra.
Qed.

Lemma mean_scores_bounds (xs : list Q) :
  Forall (λ x, (-1 <= x <= 1)%Q) xs →
  (-1 <= match xs with
         | [] => 0
         | _ => py_sum xs / inject_Z (Z.of_nat (List.length xs))
         end <= 1)%Q.
Proof.
  intros Hall. destruct xs as [|x xs]; [lra|].
  pose proof (foldr_Qplus_bounds _ Hall) as Hsum.
  rewrite py_sum_foldr.
  set (n := inject_Z (Z.of_nat (List.length (x :: xs)))) in *.
  assert (Hn : (0 < n)%Q).
  { subst n. rewrite <- (Zlt_Qlt 0). cbn [List.length]. lia. }
  split.
  - apply Qle_shift_div_l; [exact Hn|]. lra.
  - apply Qle_shift_div_r; [exact Hn|]. lra.
Qed.

Lemma combine_signal_unfold (news_items : list NewsItem)
    (futures : FuturesSnapshot) :
  combine_signal news_items futures =
    ((7 # 10) * match map score news_items with
                | [] => 0
                | _ => py_sum (map score news_items)
                       / inject_Z (Z.of_nat
                           (List.length (map score news_items)))
                end
     + (3 # 10) * py_max (-1) (py_min 1 (pct_change_since_close futures / 5)))%Q.
Proof.
  unfold combine_signal. destruct news_items; [reflexivity|].
  cbn [map]. rewrite !length_cons, length_map. reflexivity.
Qed.

Lemma combine_signal_bounds (news_items : list NewsItem)
    (futures : FuturesSnapshot) :
  (∀ item, item ∈ news_items → (-1 <= score item <= 1)%Q) →
  (-1 <= combine_signal news_items futures <= 1)%Q.
Proof.
  intros Hscores. rewrite combine_signal_unfold.
  assert (Hall : Forall (λ x, (-1 <= x <= 1)%Q) (map score news_items)).
  { apply Forall_forall. intros x (item & -> & Hitem)%list_elem_of_fmap.
    by apply Hscores. }
  pose proof (mean_scores_bounds _ Hall) as Hmean.
  pose proof (py_clamp_bounds (pct_change_since_close futures / 5)) as Hprice.
  lra.
Qed.

(** X21: when every item score lies in [-1, 1], so does the combined
    signal, whatever the snapshot; and the price alone moves it by at
    most 0.3 around 0.7 times the mean score. *)
Theorem combine_signal_bounded (news_items : list NewsItem)
    (futures : FuturesSnapshot) :
  (∀ item, item ∈ news_items → (-1 <= score item <= 1)%Q) →
  (-1 <= combine_signal news_items futures <= 1)%Q
  ∧ ((7 # 10) * news_score news_items - (3 # 10)
     <= combine_signal news_items futures
     <= (7 # 10) * news_score news_items + (3 # 10))%Q.
Proof.
  intros Hscores. split; [by apply combine_signal_bounds|].
  pose proof (py_clamp_bounds (pct_change_since_close futures / 5)) as Hprice.
  assert (Hnews : (combine_signal news_items futures ==
                   (7 # 10) * news_score news_items
                   + (3 # 10) * py_max (-1)
                       (py_min 1 (pct_change_since_close futures / 5)))%Q).
  { unfold combine_signal. destruct news_items as [|item items];
      [reflexivity|].
    unfold news_score, mean. rewrite py_sum_foldr, length_map. reflexivity. }
  rewrite Hnews. lra.
Qed.

Lemma combine_signal_bounded_witness :
  (∀ item, item ∈ [scored_item (1 # 2); scored_item (-1 # 10)] →
           (-1 <= score item <= 1)%Q)
  ∧ (-1 <= combine_signal [scored_item (1 # 2); scored_item (-1 # 10)]
             demo_snapshot <= 1)%Q.
Proof.
  assert (Hscores : ∀ item,
            item ∈ [scored_item (1 # 2); scored_item (-1 # 10)] →
            (-1 <= score item <= 1)%Q).
  { apply Forall_forall. repeat constructor; vm_compute; discriminate. }
  split; [exact Hscores|].
  exact (proj1 (combine_signal_bounded _ demo_snapshot Hscores)).
Defined.

Lemma py_clamp_monotone (x y : Q) :
  (x <= y)%Q →
  (py_max (-1) (py_min 1 x) <= py_max (-1) (py_min 1 y))%Q.
Proof.
  intros Hxy. rewrite !py_clamp by lra. unfold clamp.
  destruct (Qlt_le_dec x (-1)), (Qlt_le_dec y (-1));
    try destruct (Qlt_le_dec 1 x); try destruct (Qlt_le_dec 1 y); lra.
Qed.

Lemma py_clamp_saturates (x : Q) :
  ((1 <= x)%Q → (py_max (-1) (py_min 1 x) == 1)%Q)
  ∧ ((x <= -1)%Q → (py_max (-1) (py_min 1 x) == -1)%Q)
  ∧ ((-1 <= x <= 1)%Q → (py_max (-1) (py_min 1 x) == x)%Q).
Proof.
  rewrite py_clamp by lra. unfold clamp.
  repeat split; intros Hx;
    destruct (Qlt_le_dec x (-1)); try destruct (Qlt_le_dec 1 x); lra.
Qed.

(** X22: the combined signal never decreases when the percentage change of
    the snapshot increases, the news being the same, and it saturates: from
    a change of 5 percent on it stays at 0.7 times the news score plus 0.3,
    and from -5 percent down at 0.7 times the news score minus 0.3. *)
Theorem combine_signal_price_monotone (news_items : list NewsItem)
    (f1 f2 : FuturesSnapshot) :
  ((pct_change_since_close f1 <= pct_change_since_close f2)%Q →
   (combine_signal news_items f1 <= combine_signal news_items f2)%Q)
  ∧ ((5 <= pct_change_since_close f1)%Q →
     (combine_signal news_items f1
      == (7 # 10) * news_score news_items + (3 # 10))%Q)
  ∧ ((pct_change_since_close f1 <= -5)%Q →
     (combine_signal news_items f1
      == (7 # 10) * news_score news_items - (3 # 10))%Q).
Proof.
  assert (Hnews : ∀ f, (combine_signal news_items f ==
                   (7 # 10) * news_score news_items
                   + (3 # 10) * py_max (-1)
                       (py_min 1 (pct_change_since_close f / 5)))%Q).
  { intros f. unfold combine_signal. destruct news_items as [|item items];
      [reflexivity|].
    unfold news_score, mean. rewrite py_sum_foldr, length_map. reflexivity. }
  split; [|split].
  - intros Hle. rewrite !Hnews.
    assert (Hdiv : (pct_change_since_close f1 / 5
                    <= pct_change_since_close f2 / 5)%Q)
      by (apply Qmult_le_compat_r; [exact Hle|discriminate]).
    pose proof (py_clamp_monotone _ _ Hdiv). lra.
  - intros Hhigh. rewrite Hnews.
    destruct (py_clamp_saturates (pct_change_since_close f1 / 5))
      as (Hsat & _ & _).
    rewrite Hsat; [ring|]. apply Qle_shift_div_l; lra.
  - intros Hlow. rewrite Hnews.
    destruct (py_clamp_saturates (pct_change_since_close f1 / 5))
      as (_ & Hsat & _).
    rewrite Hsat; [ring|]. apply Qle_shift_div_r; lra.
Qed.

(** X23: with an average absolute return that is not negative, the
    expected move lies within that return, in percent, on either side of
    0 and has the sign of the combined score; it is the full return from a
    score of 1 on; and for a prior close that is not negative the expected
    price stays within that return around the prior close. *)
Theorem projection_bounds (combined_score : Q) (futures : FuturesSnapshot) :
  (0 <= avg_abs_daily_return futures)%Q →
  (- (avg_abs_daily_return futures * 100)
   <= expected_move_pct combined_score futures
   <= avg_abs_daily_return futures * 100)%Q
  ∧ ((0 <= combined_score)%Q →
     (0 <= expected_move_pct combined_score futures)%Q)
  ∧ ((combined_score <= 0)%Q →
     (expected_move_pct combined_score futures <= 0)%Q)
  ∧ ((1 <= combined_score)%Q →
     (expected_move_pct combined_score futures
      == avg_abs_daily_return futures * 100)%Q)
  ∧ ((0 <= yesterday_close futures)%Q →
     (yesterday_close futures * (1 - avg_abs_daily_return futures)
      <= expected_price combined_score futures
      <= yesterday_close futures * (1 + avg_abs_daily_return futures))%Q).
Proof.
  intros Havg.
  unfold expected_price, expected_move_pct.
  pose proof (py_clamp_bounds combined_score) as Hc.
  destruct (py_clamp_saturates combined_score) as (Hsat1 & Hsat2 & Hid).
  set (c := py_max (-1) (py_min 1 combined_score)) in *.
  set (a := avg_abs_daily_return futures) in *.
  set (y := yesterday_close futures) in *.
  clearbody c a y. cbv zeta.
  split; [nra|]. split.
  { intros Hpos. assert (0 <= c)%Q.
    { destruct (Qlt_le_dec 1 combined_score) as [Hbig|Hsmall].
      - assert (c == 1)%Q by (apply Hsat1; lra). lra.
      - assert (c == combined_score)%Q by (apply Hid; lra). lra. }
    nra. }
  split.
  { intros Hneg. assert (c <= 0)%Q.
    { destruct (Qlt_le_dec combined_score (-1)) as [Hlow|Hsmall].
      - assert (c == -1)%Q by (apply Hsat2; lra). lra.
      - assert (c == combined_score)%Q by (apply Hid; lra). lra. }
    nra. }
  split.
  { intros Hone. assert (Hc1 : (c == 1)%Q) by (apply Hsat1; lra).
    rewrite Hc1. ring. }
  intros Hy.
  assert (Hca : (- a <= c * a <= a)%Q) by nra.
  assert (Hprice : (y * (1 + c * a * 100 / 100) == y + y * (c * a))%Q)
    by field.
  rewrite Hprice. nra.
Qed.

Lemma projection_bounds_witness :
  (0 <= avg_abs_daily_return demo_snapshot)%Q
  ∧ (expected_move_pct (1 # 2) demo_snapshot
     <= avg_abs_daily_return demo_snapshot * 100)%Q.
Proof.
  assert (Havg : (0 <= avg_abs_daily_return demo_snapshot)%Q)
    by (vm_compute; discriminate).
  split; [exact Havg|].
  exact (proj2 (proj1 (projection_bounds (1 # 2) demo_snapshot Havg))).
Defined.

(** ** Classification *)

Lemma classify_signal_cases (score : Q) :
  ((15 # 100 <= score)%Q
   ∧ classify_signal score = ("Bullish", "increase")%string
   ∧ format_report_words score
     = mkReportWords "bullish" "favored" "disfavored" "increase")
  ∨ ((score <= -15 # 100)%Q
     ∧ classify_signal score = ("Bearish", "decrease")%string
     ∧ format_report_words score
       = mkReportWords "bearish" "disfavored" "favored" "decrease")
  ∨ ((-15 # 100 < score < 15 # 100)%Q
     ∧ classify_signal score = ("Neutral", "move sideways")%string
     ∧ format_report_words score
       = mkReportWords "neutral" "balanced" "balanced" "flat to mixed").
Proof.
  unfold classify_signal, format_report_words.
  destruct (Qle_bool (15 # 100) score) eqn:Ehigh.
  - left. apply Qle_bool_iff in Ehigh. done.
  - assert (Hhigh : (score < 15 # 100)%Q).
    { apply Qnot_le_lt. intros Hle. apply Qle_bool_iff in Hle. congruence. }
    destruct (Qle_bool score (-15 # 100)) eqn:Elow.
    + right; left. apply Qle_bool_iff in Elow. done.
    + right; right. split; [|done]. split; [|exact Hhigh].
      apply Qnot_le_lt. intros Hle. apply Qle_bool_iff in Hle. congruence.
Qed.

(** X24: the dashboard and the report classify a score alike, with both
    thresholds included: "Bullish" exactly from 0.15 up, "Bearish" exactly
    from -0.15 down, "Neutral" strictly between; the report's sentiment is
    the dashboard's label in lower case, and the two word the direction
    alike except for the neutral case. *)
Theorem classification_thresholds (score : Q) :
  ((classify_signal score).1 = "Bullish"%string ↔ (15 # 100 <= score)%Q)
  ∧ ((classify_signal score).1 = "Bearish"%string ↔ (score <= -15 # 100)%Q)
  ∧ ((classify_signal score).1 = "Neutral"%string
     ↔ (-15 # 100 < score < 15 # 100)%Q)
  ∧ sentiment (format_report_words score)
    = str_lower (classify_signal score).1
  ∧ ((classify_signal score).1 ≠ "Neutral"%string →
     direction (format_report_words score) = (classify_signal score).2)
  ∧ ((classify_signal score).1 = "Neutral"%string →
     direction (format_report_words score) = "flat to mixed"%string
     ∧ (classify_signal score).2 = "move sideways"%string).
Proof.
  destruct (classify_signal_cases score)
    as [(Hs & -> & ->)|[(Hs & -> & ->)|(Hs & -> & ->)]]; cbn [fst snd];
    repeat split; try discriminate; try reflexivity; try lra;
    try (intros _; lra); try (intros _; reflexivity);
    try (intros Hne; by destruct Hne).
Qed.

(** X25: the outlook never contradicts the target.  For a snapshot whose
    average absolute return and prior close are not negative, a "Bullish"
    score gives an expected move that is not negative and an expected price
    not below the prior close; a "Bearish" score gives the opposite. *)
Theorem outlook_matches_target (combined_score : Q)
    (futures : FuturesSnapshot) :
  (0 <= avg_abs_daily_return futures)%Q →
  (0 <= yesterday_close futures)%Q →
  ((classify_signal combined_score).1 = "Bullish"%string →
   (0 <= expected_move_pct combined_score futures)%Q
   ∧ (yesterday_close futures <= expected_price combined_score futures)%Q)
  ∧ ((classify_signal combined_score).1 = "Bearish"%string →
     (expected_move_pct combined_score futures <= 0)%Q
     ∧ (expected_price combined_score futures <= yesterday_close futures)%Q).
Proof.
  intros Havg Hyc.
  assert (Hprice : (expected_price combined_score futures ==
                    yesterday_close futures
                    + (1 # 100)
                      * (yesterday_close futures
                         * expected_move_pct combined_score futures))%Q)
    by (unfold expected_price; cbv zeta; field).
  assert (Hsign :
    ((0 <= combined_score)%Q →
     (0 <= expected_move_pct combined_score futures)%Q)
    ∧ ((combined_score <= 0)%Q →
       (expected_move_pct combined_score futures <= 0)%Q)).
  { unfold expected_move_pct. cbv zeta.
    pose proof (py_clamp_bounds combined_score) as Hc.
    destruct (py_clamp_saturates combined_score) as (Hsat1 & Hsat2 & Hid).
    set (c := py_max (-1) (py_min 1 combined_score)) in *.
    set (a := avg_abs_daily_return futures) in *. clearbody c a.
    split; intros Hs.
    - assert (0 <= c)%Q.
      { destruct (Qlt_le_dec 1 combined_score) as [Hbig|Hsmall].
        - assert (c == 1)%Q by (apply Hsat1; lra). lra.
        - assert (c == combined_score)%Q by (apply Hid; lra). lra. }
      nra.
    - assert (c <= 0)%Q.
      { destruct (Qlt_le_dec combined_score (-1)) as [Hlow|Hsmall].
        - assert (c == -1)%Q by (apply Hsat2; lra). lra.
        - assert (c == combined_score)%Q by (apply Hid; lra). lra. }
      nra. }
  destruct Hsign as [Hup Hdown].
  set (m := expected_move_pct combined_score futures) in *.
  set (y := yesterday_close futures) in *.
  set (p := expected_price combined_score futures) in *.
  destruct (classify_signal_cases combined_score)
    as [(Hs & -> & _)|[(Hs & -> & _)|(Hs & -> & _)]]; cbn [fst];
    clearbody m y p; split; intros Hlabel; try discriminate Hlabel.
  - assert (0 <= m)%Q by (apply Hup; lra). split; [assumption|].
    assert (0 <= y * m)%Q by nra. lra.
  - assert (m <= 0)%Q by (apply Hdown; lra). split; [assumption|].
    assert (y * m <= 0)%Q by nra. lra.
Qed.

Lemma outlook_matches_target_witness :
  (0 <= avg_abs_daily_return demo_snapshot)%Q
  ∧ (0 <= yesterday_close demo_snapshot)%Q
  ∧ (classify_signal (1 # 2)).1 = "Bullish"%string
  ∧ (yesterday_close demo_snapshot
     <= expected_price (1 # 2) demo_snapshot)%Q.
Proof.
  assert (Havg : (0 <= avg_abs_daily_return demo_snapshot)%Q)
    by (vm_compute; discriminate).
  assert (Hyc : (0 <= yesterday_close demo_snapshot)%Q)
    by (vm_compute; discriminate).
  split; [exact Havg|]. split; [exact Hyc|]. split; [reflexivity|].
  exact (proj2 (proj1 (outlook_matches_target (1 # 2) demo_snapshot
                         Havg Hyc) eq_refl)).
Defined.

(** X26: without news the price alone decides: the combined signal is 0.3
    times the clamped change over 5, so it stays within 0.3 of 0, and the
    outlook is "Bullish" exactly from a change of 2.5 percent up and
    "Bearish" exactly from -2.5 percent down. *)
Theorem no_news_outlook (futures : FuturesSnapshot) :
  (- (3 # 10) <= combine_signal [] futures <= 3 # 10)%Q
  ∧ ((classify_signal (combine_signal [] futures)).1 = "Bullish"%string
     ↔ (5 # 2 <= pct_change_since_close futures)%Q)
  ∧ ((classify_signal (combine_signal [] futures)).1 = "Bearish"%string
     ↔ (pct_change_since_close futures <= - (5 # 2))%Q).
Proof.
  assert (Hcomb : (combine_signal [] futures ==
                   (3 # 10) * py_max (-1)
                     (py_min 1 (pct_change_since_close futures / 5)))%Q)
    by (unfold combine_signal; cbv zeta; ring).
  pose proof (py_clamp_bounds (pct_change_since_close futures / 5)) as Hc.
  destruct (py_clamp_saturates (pct_change_since_close futures / 5))
    as (Hsat1 & Hsat2 & Hid).
  assert (Hdiv : (pct_change_since_close futures / 5 * 5
                  == pct_change_since_close futures)%Q) by field.
  set (x := (pct_change_since_close futures / 5)%Q) in *.
  set (pct := pct_change_since_close futures) in *.
  set (c := py_max (-1) (py_min 1 x)) in *.
  set (s := combine_signal [] futures) in *.
  split; [clearbody s c x pct; lra|].
  assert (Hc_ge : ∀ t, (-1 < t <= 1)%Q → ((t <= c)%Q ↔ (t <= x)%Q)).
  { clearbody s c x pct. intros t Ht.
    destruct (Qlt_le_dec 1 x) as [Hbig|Hsmall].
    - assert (c == 1)%Q by (apply Hsat1; lra). lra.
    - destruct (Qlt_le_dec x (-1)) as [Hlow|Hmid].
      + assert (c == -1)%Q by (apply Hsat2; lra). lra.
      + assert (c == x)%Q by (apply Hid; lra). lra. }
  assert (Hc_le : ∀ t, (-1 <= t < 1)%Q → ((c <= t)%Q ↔ (x <= t)%Q)).
  { clearbody s c x pct. intros t Ht.
    destruct (Qlt_le_dec 1 x) as [Hbig|Hsmall].
    - assert (c == 1)%Q by (apply Hsat1; lra). lra.
    - destruct (Qlt_le_dec x (-1)) as [Hlow|Hmid].
      + assert (c == -1)%Q by (apply Hsat2; lra). lra.
      + assert (c == x)%Q by (apply Hid; lra). lra. }
  specialize (Hc_ge (1 # 2) ltac:(lra)).
  specialize (Hc_le (- (1 # 2))%Q ltac:(lra)).
  destruct (classify_signal_cases s)
    as [(Hs & -> & _)|[(Hs & -> & _)|(Hs & -> & _)]]; cbn [fst];
    clearbody s c x pct; split; split; intros H;
    try discriminate H; try reflexivity; try lra.
Qed.

(** ** The two front ends *)

Lemma fetch_news_scores (parse : string → list entry)
    (sources : list string) (item : NewsItem) :
  item ∈ fetch_news parse sources → (-1 <= score item <= 1)%Q.
Proof.
  intros Hitem. rewrite fetch_news_Permutation in Hitem.
  apply dedupe_from_elem in Hitem as [Hitem _].
  apply list_elem_of_omap in Hitem as (e & _ & Hentry).
  destruct (entry_item_facts e item Hentry) as (_ & _ & _ & -> & _).
  apply score_text_bounds.
Qed.

Lemma filter_recent_today_only (items : list NewsItem) (now : datetime) :
  let res := filter_recent items now true in
  (res.2 = "today"%string ∧ res.1 ≠ [] ∨ res.2 = "none"%string ∧ res.1 = [])
  ∧ ∀ item, item ∈ res.1 →
            item ∈ items ∧ date (published item) = date now.
Proof.
  cbv zeta.
  destruct (filter (on_reference_day now) items) as [|x today] eqn:Etoday.
  - rewrite (filter_recent_fallback items now true Etoday). cbn [fst snd].
    split; [by right|]. intros item Hin. by apply elem_of_nil in Hin.
  - assert (Hsome : filter (on_reference_day now) items ≠ [])
      by (rewrite Etoday; discriminate).
    rewrite (filter_recent_today items now true Hsome). cbn [fst snd].
    split; [by left|].
    intros item [Hday Hin]%list_elem_of_filter. by split.
Qed.

Lemma fetch_price_snapshot_world (net : nat → outcome) (symbol : string)
    (timeout retries : Z) (w : world) :
  (fetch_price_snapshot net symbol timeout retries w).2
  = (fetch_json net timeout retries (chart_url_of symbol) w).2.
Proof.
  unfold fetch_price_snapshot. by destruct (fetch_json _ _ _ _ _).
Qed.

Lemma expected_move_pct_unclamped (combined_score : Q)
    (futures : FuturesSnapshot) :
  (-1 <= combined_score <= 1)%Q →
  (expected_move_pct combined_score futures
   == combined_score * avg_abs_daily_return futures * 100)%Q.
Proof.
  intros Hc. unfold expected_move_pct. cbv zeta.
  destruct (py_clamp_saturates combined_score) as (_ & _ & Hid).
  rewrite (Hid Hc). reflexivity.
Qed.

(** *** Reading the feeds *)

Lemma fetch_news_loop_spec (feed : string → fallible (list entry))
    (sources : list string) :
  ∀ st,
    fetch_news_loop feed sources st =
      match first_feed_error feed sources with
      | Some exc => inl exc
      | None =>
          inr (foldl (λ st url, foldl fetch_news_entry st (entries_of feed url))
                 st sources)
      end.
Proof.
  induction sources as [|url rest IH]; intros st; [reflexivity|].
  cbn [fetch_news_loop first_feed_error foldl].
  assert (Hentries : ∀ entries,
            feed url = inr entries → entries_of feed url = entries)
    by (intros entries Heq; unfold entries_of; by rewrite Heq).
  destruct (feed url) as [exc|entries]; cbn [mbind fallible_bind];
    [reflexivity|].
  rewrite (Hentries entries eq_refl). apply IH.
Qed.

(** [fetch_news] raises what the first feed that raises does, and is the
    ingestion of the entries when every feed answers. *)
Lemma fetch_news_io_spec (feed : string → fallible (list entry))
    (sources : list string) :
  fetch_news_io feed sources =
    match first_feed_error feed sources with
    | Some exc => inl exc
    | None => inr (fetch_news (entries_of feed) sources)
    end.
Proof.
  unfold fetch_news_io, fetch_news. rewrite fetch_news_loop_spec.
  destruct (first_feed_error feed sources); [reflexivity|]. cbn.
  by destruct (foldl _ _ sources).
Qed.

Lemma first_feed_error_None (feed : string → fallible (list entry))
    (sources : list string) :
  first_feed_error feed sources = None
  ↔ ∀ url, url ∈ sources → feed url = inr (entries_of feed url).
Proof.
  induction sources as [|url rest IH]; cbn [first_feed_error].
  - split; [|reflexivity]. intros _ url Hin. by apply elem_of_nil in Hin.
  - split.
    + intros Hnone u Hin. unfold entries_of.
      destruct (feed url) as [exc|entries] eqn:Eurl; [discriminate Hnone|].
      apply elem_of_cons in Hin as [->|Hin].
      * rewrite Eurl. reflexivity.
      * apply (proj1 IH Hnone u Hin).
    + intros Hall. rewrite (Hall url) by apply list_elem_of_here.
      apply IH. intros u Hin. apply Hall. by apply list_elem_of_further.
Qed.

Lemma first_feed_error_Some (feed : string → fallible (list entry))
    (sources : list string) (exc : exn) :
  first_feed_error feed sources = Some exc
  ↔ ∃ pre url post,
      sources = pre ++ url :: post
      ∧ first_feed_error feed pre = None
      ∧ feed url = inl exc.
Proof.
  induction sources as [|url rest IH]; cbn [first_feed_error].
  - split; [discriminate|]. intros (pre & u & post & Heq & _).
    by destruct pre.
  - split.
    + destruct (feed url) as [e|entries] eqn:Eurl.
      * intros [= ->]. by exists [], url, rest.
      * intros (pre & u & post & -> & Hpre & Hu)%IH.
        exists (url :: pre), u, post. cbn [first_feed_error].
        rewrite Eurl. by repeat split.
    + intros (pre & u & post & Heq & Hpre & Hu).
      destruct pre as [|p pre]; cbn in Heq; injection Heq as -> ->.
      * rewrite Hu. reflexivity.
      * cbn [first_feed_error] in Hpre.
        destruct (feed p); [discriminate Hpre|].
        apply IH. by exists pre, u, post.
Qed.

Lemma fetch_news_io_answering (parse : string → list entry)
    (sources : list string) :
  fetch_news_io (answering parse) sources = inr (fetch_news parse sources).
Proof.
  rewrite fetch_news_io_spec.
  assert (Hnone : first_feed_error (answering parse) sources = None)
    by (by apply first_feed_error_None).
  rewrite Hnone. reflexivity.
Qed.

(** *** [load_data] and [main] *)

(** X27: what [load_data] hands to the dashboard when it succeeds.  Every
    feed was read; the snapshot is the one fetched for BTC-USD with at most
    three requests; the items are those of the news published on the day of
    [now], so the window label is "today" or, with no such item, "none",
    never "last_24h"; the combined signal lies in [-1, 1], so the expected
    move is the signal times the average absolute return, unclamped; and
    the expected price is the projection of that signal. *)
Theorem load_data_success (now : datetime)
    (feed : string → fallible (list entry)) (net : nat → outcome)
    (w w' : world) (d : loaded) :
  load_data now feed net w = (inr d, w') →
  (∀ url, url ∈ RSS_SOURCES → feed url = inr (entries_of feed url))
  ∧ fetch_price_snapshot net YAHOO_SYMBOL 25 3 w
    = (inr (loaded_futures d), w')
  ∧ (requests_sent w' ≤ requests_sent w + 3)%nat
  ∧ loaded_now d = now
  ∧ (loaded_window_label d = "today"%string ∧ loaded_filtered d ≠ []
     ∨ loaded_window_label d = "none"%string ∧ loaded_filtered d = [])
  ∧ (∀ item, item ∈ loaded_filtered d ↔
             item ∈ fetch_news (entries_of feed) RSS_SOURCES
             ∧ date (published item) = date now)
  ∧ (-1 <= loaded_combined_score d <= 1)%Q
  ∧ loaded_combined_score d
    = combine_signal (loaded_filtered d) (loaded_futures d)
  ∧ (loaded_move_pct d
     == loaded_combined_score d
        * avg_abs_daily_return (loaded_futures d) * 100)%Q
  ∧ loaded_expected_price d
    = expected_price (loaded_combined_score d) (loaded_futures d).
Proof.
  unfold load_data. rewrite fetch_news_io_spec.
  destruct (first_feed_error feed RSS_SOURCES) as [exc|] eqn:Efeeds;
    [discriminate|].
  set (parse := entries_of feed). cbv zeta.
  pose proof (filter_recent_today_only (fetch_news parse RSS_SOURCES) now)
    as [Hlabel Hitems].
  pose proof (filter_recent_fallback (fetch_news parse RSS_SOURCES) now true)
    as Hfallback.
  pose proof (filter_recent_today (fetch_news parse RSS_SOURCES) now true)
    as Htoday.
  destruct (filter_recent (fetch_news parse RSS_SOURCES) now true)
    as [filtered label] eqn:Efilter.
  cbn [fst snd] in Hlabel, Hitems.
  pose proof (fetch_price_snapshot_world net YAHOO_SYMBOL 25 3 w) as Hworld.
  destruct (fetch_price_snapshot net YAHOO_SYMBOL 25 3 w)
    as [[e|futures] w1] eqn:Efetch; cbn; intros Hd; [discriminate Hd|].
  injection Hd as <- <-.
  cbn [loaded_futures loaded_now loaded_window_label loaded_filtered
       loaded_combined_score loaded_move_pct loaded_expected_price].
  assert (Hscores : ∀ item, item ∈ filtered → (-1 <= score item <= 1)%Q).
  { intros item Hitem. destruct (Hitems item Hitem) as [Hnews _].
    by apply (fetch_news_scores parse RSS_SOURCES). }
  pose proof (combine_signal_bounds filtered futures Hscores) as Hbound.
  split; [by apply first_feed_error_None|].
  split; [reflexivity|]. split.
  { cbn [snd] in Hworld. rewrite Hworld.
    pose proof (fetch_json_request_bound_aux net 25 3
                  (chart_url_of YAHOO_SYMBOL) w) as Hreq.
    exact Hreq. }
  split; [reflexivity|]. split; [exact Hlabel|]. split.
  { intros item. split; [apply Hitems|]. intros [Hnews Hday].
    destruct (filter (on_reference_day now) (fetch_news parse RSS_SOURCES))
      as [|x today] eqn:Etoday.
    - exfalso. by apply (proj1 (filter_nil_iff _ _) Etoday item Hnews).
    - pose proof (Htoday ltac:(discriminate)) as Heq.
      injection Heq as -> _.
      rewrite <- Etoday. apply list_elem_of_filter. by split. }
  split; [exact Hbound|]. split; [reflexivity|].
  split; [by apply expected_move_pct_unclamped|reflexivity].
Qed.

Lemma load_data_success_witness :
  ∃ d w',
    load_data (fromtimestamp 1699923600) (answering demo_parse)
      (always demo_week) world0
    = (inr d, w')
    ∧ loaded_window_label d = "today"%string
    ∧ (-1 <= loaded_combined_score d <= 1)%Q.
Proof.
  assert (Hrun : ∃ d w',
    load_data (fromtimestamp 1699923600) (answering demo_parse)
      (always demo_week) world0
    = (inr d, w') ∧ loaded_window_label d = "today"%string).
  { vm_compute. eexists _, _. split; reflexivity. }
  destruct Hrun as (d & w' & Hrun & Hlabel).
  exists d, w'. split; [exact Hrun|]. split; [exact Hlabel|].
  destruct (load_data_success _ _ _ _ _ _ Hrun)
    as (_ & _ & _ & _ & _ & _ & Hbound & _).
  exact Hbound.
Defined.

(** X28: [load_data] fails in exactly two ways.  Either a feed raises:
    then the call ends with the exception of the first feed that does, and
    the price is not asked for, so that the world is left as it was.  Or
    every feed answers and the price fetch fails: then the call ends with
    the exception of the fetch and in the world the fetch leaves. *)
Theorem load_data_failure (now : datetime)
    (feed : string → fallible (list entry)) (net : nat → outcome)
    (w w' : world) (e : exn) :
  load_data now feed net w = (inl e, w')
  ↔ (first_feed_error feed RSS_SOURCES = Some e ∧ w' = w)
    ∨ (first_feed_error feed RSS_SOURCES = None
       ∧ fetch_price_snapshot net YAHOO_SYMBOL 25 3 w = (inl e, w')).
Proof.
  unfold load_data. rewrite fetch_news_io_spec.
  destruct (first_feed_error feed RSS_SOURCES) as [exc|].
  - split.
    + intros [= -> ->]. by left.
    + intros [[[= ->] ->]|[Hnone _]]; [reflexivity|discriminate Hnone].
  - destruct (filter_recent (fetch_news (entries_of feed) RSS_SOURCES)
                now true) as [filtered label].
    destruct (fetch_price_snapshot net YAHOO_SYMBOL 25 3 w)
      as [[e1|futures] w1]; cbn.
    + split.
      * intros [= -> ->]. by right.
      * intros [[Hsome _]|[_ [= -> ->]]]; [discriminate Hsome|reflexivity].
    + split; [intros Heq; discriminate Heq|].
      intros [[Hsome _]|[_ Heq]]; [discriminate Hsome|discriminate Heq].
Qed.

(** The second feed raises: [load_data] raises the same and no request for
    the price is sent. *)
Lemma load_data_failure_witness :
  load_data (fromtimestamp 1699923600)
    (failing_at "https://cointelegraph.com/rss" (OtherException "URLError")
       demo_parse)
    (always demo_week) world0
  = (inl (OtherException "URLError"), world0).
Proof.
  apply load_data_failure. left. split; vm_compute; reflexivity.
Defined.

(** X29: what [main] makes of its three outcomes.  A feed that raises is
    outside the [try]: its exception leaves [main] and no price is asked
    for.  With every feed read, a failed price fetch gives the exit status 1
    and the message about its exception when that is an [Exception], and
    leaves [main] otherwise; so the status is 1 exactly in the first of
    these cases.  A successful fetch gives the status 0 and a report made of
    at most 40 items, the first ones of today's news, newest first, with a
    headline limit of 10, the label "today" or "none", and the combined
    signal of exactly those items. *)
Theorem main_exit_status (now : datetime)
    (feed : string → fallible (list entry)) (net : nat → outcome)
    (w : world) :
  (∀ e, first_feed_error feed RSS_SOURCES = Some e →
        main now feed net w = (inl e, w))
  ∧ (first_feed_error feed RSS_SOURCES = None →
     (∀ e w', fetch_price_snapshot net YAHOO_SYMBOL 25 3 w = (inl e, w') →
              main now feed net w =
                (if is_Exception e then inr (1, FetchFailure e) else inl e,
                 w'))
     ∧ (∀ futures w',
          fetch_price_snapshot net YAHOO_SYMBOL 25 3 w = (inr futures, w') →
          ∃ args,
            main now feed net w = (inr (0, Report args), w')
            ∧ report_limit args = 10
            ∧ report_now args = now
            ∧ report_futures args = futures
            ∧ (List.length (report_news_items args) ≤ 40)%nat
            ∧ report_news_items args
              = take 40 (filter_recent
                           (fetch_news (entries_of feed) RSS_SOURCES)
                           now true).1
            ∧ report_source_label args
              = (filter_recent (fetch_news (entries_of feed) RSS_SOURCES)
                   now true).2
            ∧ (report_source_label args = "today"%string
               ∨ report_source_label args = "none"%string)
            ∧ report_combined_score args
              = combine_signal (report_news_items args) futures
            ∧ (-1 <= report_combined_score args <= 1)%Q))
  ∧ (∀ p w',
       main now feed net w = (inr (1, p), w')
       ↔ first_feed_error feed RSS_SOURCES = None
         ∧ ∃ e, is_Exception e = true
                ∧ fetch_price_snapshot net YAHOO_SYMBOL 25 3 w = (inl e, w')
                ∧ p = FetchFailure e).
Proof.
  unfold main. cbv zeta. rewrite fetch_news_io_spec.
  destruct (first_feed_error feed RSS_SOURCES) as [exc|].
  { split; [by intros e [= ->]|]. split; [discriminate|].
    intros p w'. split; [discriminate|]. intros [Hnone _]. discriminate Hnone. }
  set (parse := entries_of feed).
  pose proof (filter_recent_today_only (fetch_news parse RSS_SOURCES) now)
    as [Hlabel Hitems].
  destruct (filter_recent (fetch_news parse RSS_SOURCES) now true)
    as [filtered label].
  cbn [fst snd] in *.
  split; [discriminate|]. split.
  - intros _. split.
    + intros e w' ->. by destruct (is_Exception e).
    + intros futures w' ->. eexists. split; [reflexivity|].
      cbn [report_limit report_now report_futures report_news_items
           report_source_label report_combined_score].
      unfold py_take. change (Z.to_nat 40) with 40%nat.
      split; [reflexivity|]. split; [reflexivity|]. split; [reflexivity|].
      split; [rewrite length_take; lia|]. split; [reflexivity|].
      split; [reflexivity|]. split; [tauto|]. split; [reflexivity|].
      apply combine_signal_bounds. intros item Hitem.
      apply elem_of_take in Hitem as (i & Hi & _).
      apply list_elem_of_lookup_2 in Hi.
      destruct (Hitems item Hi) as [Hnews _].
      by apply (fetch_news_scores parse RSS_SOURCES).
  - intros p w'.
    destruct (fetch_price_snapshot net YAHOO_SYMBOL 25 3 w)
      as [[e|futures] w1].
    + destruct (is_Exception e) eqn:Ee.
      * split.
        -- intros [= <- <-]. split; [reflexivity|]. by exists e.
        -- intros (_ & e' & _ & [= <- <-] & ->). reflexivity.
      * split; [discriminate|].
        intros (_ & e' & He' & [= <- <-] & _). congruence.
    + split; [discriminate|].
      intros (_ & e' & _ & Heq & _). discriminate Heq.
Qed.

(** A feed that raises, and an interrupt during the price fetch: both leave
    [main], the first without a request, the second after one. *)
Lemma main_exit_status_witness :
  main (fromtimestamp 1699923600)
    (failing_at "https://cointelegraph.com/rss" (OtherException "URLError")
       demo_parse)
    (always demo_week) world0
  = (inl (OtherException "URLError"), world0)
  ∧ (main (fromtimestamp 1699923600) (answering demo_parse)
       (λ _, Raises (BaseExceptionOnly "KeyboardInterrupt")) world0).1
    = inl (BaseExceptionOnly "KeyboardInterrupt")
  ∧ (main (fromtimestamp 1699923600) (answering demo_parse)
       (λ _, Raises (OtherException "JSONDecodeError")) world0).1
    = inr (1, FetchFailure (OtherException "JSONDecodeError")).
Proof.
  split; [|split].
  - apply (proj1 (main_exit_status _ _ _ _)). vm_compute. reflexivity.
  - destruct (main_exit_status (fromtimestamp 1699923600)
                (answering demo_parse)
                (λ _, Raises (BaseExceptionOnly "KeyboardInterrupt")) world0)
      as (_ & Hfetch & _).
    destruct (Hfetch ltac:(vm_compute; reflexivity)) as [Hfail _].
    pose proof (Hfail (BaseExceptionOnly "KeyboardInterrupt") _
                  ltac:(vm_compute; reflexivity)) as Hmain.
    rewrite Hmain. reflexivity.
  - destruct (main_exit_status (fromtimestamp 1699923600)
                (answering demo_parse)
                (λ _, Raises (OtherException "JSONDecodeError")) world0)
      as (_ & Hfetch & _).
    destruct (Hfetch ltac:(vm_compute; reflexivity)) as [Hfail _].
    pose proof (Hfail (OtherException "JSONDecodeError") _
                  ltac:(vm_compute; reflexivity)) as Hmain.
    rewrite Hmain. reflexivity.
Defined.

(** X30: the two front ends agree as long as today has at most 40 items:
    then what [load_data] returns is what [main] reports, with the same
    items, label, snapshot and combined signal.  (Beyond 40 items [main]
    scores the first 40 only, [load_data] all of them.) *)
Theorem main_agrees_with_load_data (now : datetime)
    (feed : string → fallible (list entry)) (net : nat → outcome)
    (w w' : world) (d : loaded) :
  load_data now feed net w = (inr d, w') →
  (List.length (loaded_filtered d) ≤ 40)%nat →
  main now feed net w =
    (inr (0, Report (mkReportArgs (loaded_filtered d) (loaded_window_label d)
                       (loaded_futures d) (loaded_combined_score d) now 10)),
     w').
Proof.
  unfold load_data, main. cbv zeta.
  destruct (fetch_news_io feed RSS_SOURCES) as [exc|news]; [discriminate|].
  destruct (filter_recent news now true) as [filtered label].
  destruct (fetch_price_snapshot net YAHOO_SYMBOL 25 3 w)
    as [[e|futures] w1]; cbn; intros Hd; [discriminate Hd|].
  injection Hd as <- <-.
  cbn [loaded_filtered loaded_window_label loaded_futures
       loaded_combined_score].
  intros Hlen. unfold py_take. rewrite take_ge by (cbn; lia).
  reflexivity.
Qed.

Lemma main_agrees_with_load_data_witness :
  ∃ d w',
    load_data (fromtimestamp 1699923600) (answering demo_parse)
      (always demo_week) world0
    = (inr d, w')
    ∧ (List.length (loaded_filtered d) ≤ 40)%nat
    ∧ (main (fromtimestamp 1699923600) (answering demo_parse)
         (always demo_week) world0).1
      = inr (0, Report (mkReportArgs (loaded_filtered d)
                          (loaded_window_label d) (loaded_futures d)
                          (loaded_combined_score d)
                          (fromtimestamp 1699923600) 10)).
Proof.
  assert (Hrun : ∃ d w',
    load_data (fromtimestamp 1699923600) (answering demo_parse)
      (always demo_week) world0
    = (inr d, w') ∧ (List.length (loaded_filtered d) ≤ 40)%nat).
  { eexists _, _. split; [vm_compute; reflexivity|]. cbn. lia. }
  destruct Hrun as (d & w' & Hrun & Hlen).
  exists d, w'. split; [exact Hrun|]. split; [exact Hlen|].
  rewrite (main_agrees_with_load_data _ _ _ _ _ _ Hrun Hlen). reflexivity.
Defined.
